(** * The actor runtime of [src/actor.ts]: message dispatch and undo/redo history

    A shallow embedding of the abstract class [Actor] and of the properties
    its message-processing and reversible-history engine is expected to have.

    - JavaScript arrays used as stacks are lists in array order: [push]
      appends at the end and [pop] removes the last element.
    - The methods of the class are computations in a small monad [M] that
      threads the actor object, can raise a JavaScript exception and records
      what the actor does to the outside world (console diagnostics and
      subscriber invocations) as an ordered list of events.
    - The immer library ([produceWithPatches], [applyPatches]), the array
      pattern that [undo] and [redo] apply to what [applyPatches] returns,
      and the two abstract methods ([isMessageTypeValid], [handleMessage])
      are interfaces, given as type classes; what a theorem needs of them is
      a separate proposition that it takes as a hypothesis.
    - The fields [parent] and [children] are kept apart from the others: no
      method but [createChild] and [getParent] touches them, and they are
      modelled with the heap of actor objects in the section on the actor
      tree. *)

From Stdlib Require Import String List ZArith Bool Arith Lia.
Import ListNotations.

Set Implicit Arguments.

(** ** Arrays as stacks *)

Section ArrayStack.
Context {A : Type}.

(** [arr.push(x)] *)
Definition push (arr : list A) (x : A) : list A := arr ++ [x].

(** [arr.pop()]: the last element and the shortened array, [None] standing
    for the [undefined] that an empty array gives. *)
Fixpoint pop (arr : list A) : option (A * list A) :=
  match arr with
  | [] => None
  | x :: arr' =>
      match pop arr' with
      | None => Some (x, [])
      | Some (y, rest) => Some (y, x :: rest)
      end
  end.

End ArrayStack.

(** ** Data model *)

(** How a call ends: with a value, or with a thrown exception. *)
Inductive Completion (Err A : Type) : Type :=
| Normal (v : A)
| Throw (e : Err).
Arguments Normal {Err A} v.
Arguments Throw {Err A} e.

(** [interface BaseMessage { type: string; version?: number }] *)
Class BaseMessage (Message : Type) : Type := {
  type : Message -> string;
  version : Message -> option Z
}.

(** [interface Change]: the shape of an immer patch. *)
Inductive Op : Type := replace | remove | add.

Inductive PathKey : Type :=
| Prop_ (name : string)
| Index (i : Z).

Record Change (Value : Type) : Type := {
  op : Op;
  path : list PathKey;
  value : option Value
}.

(** [interface History<T> { past: T[]; future: T[] }] *)
Record History (T : Type) : Type := {
  past : list T;
  future : list T
}.

(** The entries of the history: [{ state: State; inversePatches: Patch[] }]. *)
Module Checkpoint.
Record t (State Patch : Type) : Type := mk {
  state : State;
  inversePatches : list Patch
}.
Arguments mk {State Patch} state inversePatches.
End Checkpoint.

(** The private fields of [Actor] that the methods below use. *)
Record Actor (State Patch Callback : Type) : Type := {
  id : string;
  state : State;
  subscribers : list Callback;
  history : History (Checkpoint.t State Patch)
}.

(** What an actor does to the outside world. *)
Inductive Event (State Callback : Type) : Type :=
| Warn (text : string)                         (* console.warn(text) *)
| Call (callback : Callback) (arg : State).    (* callback(arg) *)
Arguments Warn {State Callback} text.
Arguments Call {State Callback} callback arg.

(** ** Interfaces the class is written against *)

(** The two functions imported from immer.  The recipe given to
    [produceWithPatches] edits a draft; it is a function from the draft to
    the edited draft, or to the exception it throws.  [applyPatches] returns
    the patched value, and nothing else, or throws. *)
Class Immer (State Patch Err : Type) : Type := {
  produceWithPatches :
    State -> (State -> Completion Err State) ->
    Completion Err (State * list Patch * list Patch);
  applyPatches : State -> list Patch -> Completion Err State
}.

(** The array pattern [[newState, newPatches]] bound to a state value: the
    value is iterated.  A value that is not iterable (every plain object)
    makes the binding throw a [TypeError]; an iterable one gives its first two
    items. *)
Class ArrayPattern (State Patch Err : Type) : Type := {
  destructure : State -> Completion Err (State * list Patch)
}.

(** The abstract methods every concrete actor class supplies. *)
Class ActorClass (State Message Err : Type) : Type := {
  isMessageTypeValid : string -> bool;
  handleMessage : State -> Message -> Completion Err State
}.

(** Callbacks are compared by identity ([!==]). *)
Class Identity (Callback : Type) : Type := {
  same : Callback -> Callback -> bool;
  same_spec : forall f g, same f g = true <-> f = g
}.

(** ** The monad of methods *)

Section Methods.
Context {State Patch Callback Err : Type}.

Local Abbreviation actor_t := (Actor State Patch Callback).
Local Abbreviation event_t := (Event State Callback).

(** The result of running a method on an actor object: how the call ended,
    the object as the call left it (also when it threw) and the events it
    emitted, oldest first. *)
Record Outcome (A : Type) : Type := {
  result : Completion Err A;
  final : actor_t;
  emitted : list event_t
}.

Definition M (A : Type) : Type := actor_t -> Outcome A.

Definition ret {A} (v : A) : M A :=
  fun this => {| result := Normal v; final := this; emitted := [] |}.

Definition bind {A B} (c : M A) (k : A -> M B) : M B :=
  fun this =>
    let o := c this in
    match result o with
    | Normal v =>
        let o' := k v (final o) in
        {| result := result o'; final := final o';
           emitted := emitted o ++ emitted o' |}
    | Throw e =>
        {| result := Throw e; final := final o; emitted := emitted o |}
    end.

(** Reading the object. *)
Definition this : M actor_t :=
  fun this => {| result := Normal this; final := this; emitted := [] |}.

(** Assignments to fields. *)
Definition set_state (s : State) : M unit :=
  fun this =>
    {| result := Normal tt;
       final := {| id := id this; state := s;
                   subscribers := subscribers this;
                   history := history this |};
       emitted := [] |}.

Definition set_subscribers (l : list Callback) : M unit :=
  fun this =>
    {| result := Normal tt;
       final := {| id := id this; state := state this;
                   subscribers := l;
                   history := history this |};
       emitted := [] |}.

Definition set_past (l : list (Checkpoint.t State Patch)) : M unit :=
  fun this =>
    {| result := Normal tt;
       final := {| id := id this; state := state this;
                   subscribers := subscribers this;
                   history := {| past := l;
                                 future := future (history this) |} |};
       emitted := [] |}.

Definition set_future (l : list (Checkpoint.t State Patch)) : M unit :=
  fun this =>
    {| result := Normal tt;
       final := {| id := id this; state := state this;
                   subscribers := subscribers this;
                   history := {| past := past (history this);
                                 future := l |} |};
       emitted := [] |}.

(** Calls that leave the object alone. *)
Definition emit (e : event_t) : M unit :=
  fun this => {| result := Normal tt; final := this; emitted := [e] |}.

Definition lift {A} (c : Completion Err A) : M A :=
  fun this => {| result := c; final := this; emitted := [] |}.

End Methods.

Arguments Outcome : clear implicits.
Arguments M : clear implicits.

Declare Scope method_scope.
Delimit Scope method_scope with method.
Notation "x <- c ;; k" := (bind c (fun x => k))
  (at level 61, c at next level, right associativity) : method_scope.
Notation "' pat <- c ;; k" := (bind c (fun x => match x with pat => k end))
  (at level 61, pat pattern, c at next level, right associativity) : method_scope.
Notation "c ;; k" := (bind c (fun _ => k))
  (at level 61, right associativity) : method_scope.
Local Open Scope method_scope.

(** ** The class *)

Section ActorMethods.
Context {State Patch Message Callback Err : Type}.
Context {message_shape : BaseMessage Message}.
Context {immer : Immer State Patch Err}.
Context {array_pattern : ArrayPattern State Patch Err}.
Context {concrete : ActorClass State Message Err}.
Context {callback_identity : Identity Callback}.

Local Abbreviation actor_t := (Actor State Patch Callback).
Local Abbreviation method := (M State Patch Callback Err).

(** [constructor(id, initialState, parent?)], with the fields' initial
    values; the hook [onStart] has the empty body of the base class. *)
Definition onStart : method unit := ret tt.

Definition new (id0 : string) (initialState : State) : actor_t :=
  final (onStart {| id := id0; state := initialState; subscribers := [];
                    history := {| past := []; future := [] |} |}).

(** [array.forEach(f)] *)
Fixpoint forEach {X} (arr : list X) (f : X -> method unit) : method unit :=
  match arr with
  | [] => ret tt
  | x :: arr' => f x ;; forEach arr' f
  end.

(** [notifySubscribers()] *)
Definition notifySubscribers : method unit :=
  a <- this ;;
  forEach (subscribers a)
    (fun callback => a <- this ;; emit (Call callback (state a))).

(** The closure that [subscribe(callback)] returns: it captures the object
    and [callback], and assigns a filtered copy of the array. *)
Definition unsubscribe (callback : Callback) : method unit :=
  a <- this ;;
  set_subscribers
    (filter (fun subscriber => negb (same subscriber callback))
            (subscribers a)).

(** [subscribe(callback)] *)
Definition subscribe (callback : Callback) : method (method unit) :=
  a <- this ;;
  set_subscribers (push (subscribers a) callback) ;;
  ret (unsubscribe callback).

(** [processMessage(message)] *)
Definition processMessage (message : Message) : method unit :=
  a <- this ;;
  ' (newState, patches, inversePatches) <-
      lift (produceWithPatches (state a)
              (fun draft => handleMessage draft message)) ;;
  set_state newState ;;
  a <- this ;;
  set_past (push (past (history a))
              (Checkpoint.mk (state a) inversePatches)) ;;
  set_future [] ;;
  notifySubscribers.

(** [sendMessage(message)] *)
Definition sendMessage (message : Message) : method unit :=
  if negb (isMessageTypeValid (type message)) then
    emit (Warn ("Unknown message type: " ++ type message)%string)
  else
    processMessage message.

(** [undo()].  The second branch of the inner match stands for the
    [undefined] that [pop()] gives on an empty array; the guard before it
    makes it unreachable. *)
Definition undo : method unit :=
  a <- this ;;
  if length (past (history a)) =? 0 then ret tt
  else
    match pop (past (history a)) with
    | Some (c, rest) =>
        set_past rest ;;
        a <- this ;;
        applied <- lift (applyPatches (state a) (Checkpoint.inversePatches c)) ;;
        ' (newState, newPatches) <- lift (destructure applied) ;;
        a <- this ;;
        set_future (push (future (history a))
                      (Checkpoint.mk (state a) newPatches)) ;;
        set_state newState ;;
        notifySubscribers
    | None => ret tt
    end.

(** [redo()], the same with the two stacks exchanged. *)
Definition redo : method unit :=
  a <- this ;;
  if length (future (history a)) =? 0 then ret tt
  else
    match pop (future (history a)) with
    | Some (c, rest) =>
        set_future rest ;;
        a <- this ;;
        applied <- lift (applyPatches (state a) (Checkpoint.inversePatches c)) ;;
        ' (newState, newPatches) <- lift (destructure applied) ;;
        a <- this ;;
        set_past (push (past (history a))
                    (Checkpoint.mk (state a) newPatches)) ;;
        set_state newState ;;
        notifySubscribers
    | None => ret tt
    end.

(** [getId()] *)
Definition getId : method string := a <- this ;; ret (id a).


(** ** Callers and observations *)

(** The object as a call leaves it. *)
Definition after {A} (c : method A) (a : actor_t) : actor_t := final (c a).

(** [n] consecutive calls of the same method. *)
Fixpoint times (n : nat) (c : method unit) : method unit :=
  match n with
  | O => ret tt
  | S n' => c ;; times n' c
  end.

(** Subscribing a list of callbacks one after the other. *)
Definition subscribeAll (callbacks : list Callback) : method unit :=
  forEach callbacks (fun callback => _ <- subscribe callback ;; ret tt).

(** The calls that notify every subscriber of [a] with [s], in array order. *)
Definition notifications (a : actor_t) (s : State) : list (Event State Callback) :=
  map (fun callback => Call callback s) (subscribers a).

(** How many times [f] is registered, and how many times it is invoked. *)
Definition registrations (f : Callback) (a : actor_t) : nat :=
  length (filter (fun g => same g f) (subscribers a)).

Definition invocations (f : Callback) (events : list (Event State Callback)) : nat :=
  length (filter (fun e => match e with
                           | Call g _ => same g f
                           | Warn _ => false
                           end) events).

(** The element a [pop()] would return. *)
Definition top {X} (arr : list X) : option X := option_map fst (pop arr).

(** The object after a successful transition. *)
Definition committed (a : actor_t) (newState : State) (inversePatches : list Patch)
  : actor_t :=
  {| id := id a; state := newState; subscribers := subscribers a;
     history := {| past := push (past (history a))
                             (Checkpoint.mk newState inversePatches);
                   future := [] |} |}.

(** How [const [newState, newPatches] = applyPatches(s, patches)] ends. *)
Definition patched (s : State) (patches : list Patch)
  : Completion Err (State * list Patch) :=
  match applyPatches s patches with
  | Normal applied => destructure applied
  | Throw e => Throw e
  end.

(** The object once [past.pop()] has taken the top checkpoint and nothing
    else was done; the same for [future.pop()]. *)
Definition without_top_of_past (a : actor_t)
  (rest : list (Checkpoint.t State Patch)) : actor_t :=
  {| id := id a; state := state a; subscribers := subscribers a;
     history := {| past := rest; future := future (history a) |} |}.

Definition without_top_of_future (a : actor_t)
  (rest : list (Checkpoint.t State Patch)) : actor_t :=
  {| id := id a; state := state a; subscribers := subscribers a;
     history := {| past := past (history a); future := rest |} |}.

(** The object after an undo, and after a redo, that ran to its end. *)
Definition undone (a : actor_t) (rest : list (Checkpoint.t State Patch))
  (newState : State) (newPatches : list Patch) : actor_t :=
  {| id := id a; state := newState; subscribers := subscribers a;
     history := {| past := rest;
                   future := push (future (history a))
                               (Checkpoint.mk (state a) newPatches) |} |}.

Definition redone (a : actor_t) (rest : list (Checkpoint.t State Patch))
  (newState : State) (newPatches : list Patch) : actor_t :=
  {| id := id a; state := newState; subscribers := subscribers a;
     history := {| past := push (past (history a))
                             (Checkpoint.mk (state a) newPatches);
                   future := rest |} |}.

End ActorMethods.

(** ** What the theorems assume of the interfaces *)

Section ImmerContract.
Context {State Patch Err : Type} {immer : Immer State Patch Err}.

(** An exception thrown by the recipe leaves [produceWithPatches] as it is:
    nothing is produced. *)
Definition produce_propagates : Prop :=
  forall (s : State) recipe (e : Err),
    recipe s = Throw e -> produceWithPatches s recipe = Throw e.

(** A recipe that edits nothing gives the base back, with no patches. *)
Definition produce_no_edit : Prop :=
  forall (s : State) recipe,
    recipe s = Normal s -> produceWithPatches s recipe = Normal (s, [], []).

End ImmerContract.

Section StateShape.
Context {State Patch Err : Type} {array_pattern : ArrayPattern State Patch Err}.

(** No state value is iterable, as when states are plain objects. *)
Definition not_iterable : Prop :=
  forall s : State, exists e : Err, destructure s = Throw e.

End StateShape.

(** ** A concrete actor class: the counter

    [State = { count: number }]; the message [increment] adds one to
    [count], [noop] edits nothing and [fail] throws.  Patches are [Change]
    records over numbers; the engine understands a [replace] of the property
    [count] and skips any other patch. *)

Module Counter.

Record State : Type := { count : Z }.

Record Message : Type := { type_ : string; version_ : option Z }.

Definition Patch : Type := Change Z.

Definition Err : Type := string.

(** Callbacks are told apart by a number. *)
Definition Callback : Type := nat.

#[global] Instance message_shape : BaseMessage Message :=
  {| type := type_; version := version_ |}.

Definition replace_count (v : Z) : Patch :=
  {| op := replace; path := [Prop_ "count"]; value := Some v |}.

(** The number a patch assigns to [count], if it is such a patch. *)
Definition assigns (p : Patch) : option Z :=
  match op p, path p, value p with
  | replace, [Prop_ name], Some v => if (name =? "count")%string then Some v else None
  | _, _, _ => None
  end.

(** Applies [patches] in order. *)
Fixpoint apply_all (s : State) (patches : list Patch) : State :=
  match patches with
  | [] => s
  | p :: patches' =>
      match assigns p with
      | Some v => apply_all {| count := v |} patches'
      | None => apply_all s patches'
      end
  end.

#[global] Instance immer : Immer State Patch Err :=
  {| produceWithPatches s recipe :=
       match recipe s with
       | Throw e => Throw e
       | Normal s' =>
           if (count s' =? count s)%Z then Normal (s', [], [])
           else Normal (s', [replace_count (count s')], [replace_count (count s)])
       end;
     applyPatches s patches := Normal (apply_all s patches) |}.

(** A counter state is a plain object: binding it to an array pattern
    throws. *)
Definition not_iterable_error : Err := "TypeError: object is not iterable"%string.

#[global] Instance array_pattern : ArrayPattern State Patch Err :=
  {| destructure _ := Throw not_iterable_error |}.

#[global] Instance concrete : ActorClass State Message Err :=
  {| isMessageTypeValid t :=
       ((t =? "increment") || (t =? "noop") || (t =? "fail"))%string;
     handleMessage draft message :=
       if (type_ message =? "increment")%string then
         Normal {| count := count draft + 1 |}
       else if (type_ message =? "fail")%string then
         Throw "fail"%string
       else Normal draft |}.

#[global] Instance callback_identity : Identity Callback :=
  {| same := Nat.eqb; same_spec := Nat.eqb_eq |}.

Definition increment : Message := {| type_ := "increment"; version_ := None |}.
Definition noop : Message := {| type_ := "noop"; version_ := None |}.
Definition fail : Message := {| type_ := "fail"; version_ := None |}.
Definition unknown : Message := {| type_ := "decrement"; version_ := Some 2%Z |}.

Definition method : Type -> Type := M State Patch Callback Err.

(** A fresh counter at zero, and the same after one [increment]. *)
Definition fresh : Actor State Patch Callback :=
  new (Err := Err) "counter" {| count := 0 |}.

Definition once : Actor State Patch Callback :=
  after (sendMessage increment : method unit) fresh.

(** After two [increment]s; after one [increment] and an [undo()] whose
    exception was caught. *)
Definition twice : Actor State Patch Callback :=
  after (sendMessage increment : method unit) once.

Definition rewound : Actor State Patch Callback :=
  after (undo : method unit) once.

(** A fresh counter on which callback 7 was subscribed twice, around a
    subscription of callback 8. *)
Definition watched : Actor State Patch Callback :=
  after (subscribeAll [7; 8; 7] : method unit) fresh.

End Counter.

(** ** Clients of one actor *)

Section Clients.
Context {State Patch Message Callback Err : Type}.
Context {message_shape : BaseMessage Message}.
Context {immer : Immer State Patch Err}.
Context {array_pattern : ArrayPattern State Patch Err}.
Context {concrete : ActorClass State Message Err}.
Context {callback_identity : Identity Callback}.

Local Abbreviation actor_t := (Actor State Patch Callback).
Local Abbreviation method := (M State Patch Callback Err).

(** The calls a client can make on an actor it holds.  [Unsubscribe f]
    stands for running a closure that an earlier [subscribe(f)] returned. *)
Inductive Request : Type :=
| SendMessage (message : Message)
| Undo
| Redo
| Subscribe (callback : Callback)
| Unsubscribe (callback : Callback).

Definition perform (r : Request) : method unit :=
  match r with
  | SendMessage message => sendMessage message
  | Undo => undo
  | Redo => redo
  | Subscribe callback => _ <- subscribe callback ;; ret tt
  | Unsubscribe callback => unsubscribe callback
  end.

(** [try { c } catch (e) {}]: what the call did stays done. *)
Definition attempt {A} (c : method A) : method unit :=
  fun this =>
    let o := c this in
    {| result := Normal tt; final := final o; emitted := emitted o |}.

(** A client making one call after the other, going on after a call that
    threw. *)
Definition session (requests : list Request) : method unit :=
  forEach requests (fun r => attempt (perform r)).

Definition is_send (r : Request) : bool :=
  match r with SendMessage _ => true | _ => false end.

Definition is_subscription (r : Request) : bool :=
  match r with Subscribe _ | Unsubscribe _ => true | _ => false end.

Definition subscribes (f : Callback) (r : Request) : bool :=
  match r with Subscribe g => same g f | _ => false end.

(** The diagnostics among the events, and the ones a list of requests asks
    for: one for each message of a type the class does not know. *)
Definition warnings (events : list (Event State Callback)) : list string :=
  flat_map (fun e => match e with Warn text => [text] | Call _ _ => [] end) events.

Definition unknown_types (requests : list Request) : list string :=
  flat_map (fun r => match r with
                     | SendMessage message =>
                         if isMessageTypeValid (type message) then []
                         else [("Unknown message type: " ++ type message)%string]
                     | _ => []
                     end) requests.

(** The callbacks called by a list of events, in order. *)
Definition called (events : list (Event State Callback)) : list Callback :=
  flat_map (fun e => match e with Warn _ => [] | Call f _ => [f] end) events.

(** Two actor objects that differ at most in the [state] field of the
    checkpoints on their stacks. *)
Definition patch_lists (arr : list (Checkpoint.t State Patch)) : list (list Patch) :=
  map (@Checkpoint.inversePatches State Patch) arr.

Definition alike (a b : actor_t) : Prop :=
  id a = id b /\ state a = state b /\ subscribers a = subscribers b /\
  patch_lists (past (history a)) = patch_lists (past (history b)) /\
  patch_lists (future (history a)) = patch_lists (future (history b)).

End Clients.

(** ** The actor tree

    Actor objects refer to each other ([parent], [children]), so they live
    in a heap: a reference is the position of the object, and construction
    puts the new object at the end. *)

Section Tree.
Context {State Patch Message Callback Err : Type}.
Context {message_shape : BaseMessage Message}.
Context {immer : Immer State Patch Err}.
Context {array_pattern : ArrayPattern State Patch Err}.
Context {concrete : ActorClass State Message Err}.
Context {callback_identity : Identity Callback}.

Local Abbreviation actor_t := (Actor State Patch Callback).
Local Abbreviation method := (M State Patch Callback Err).

Definition Ref : Type := nat.

(** An actor object with all its fields: the ones of [Actor] above and the
    two links. *)
Record Object : Type := {
  fields : actor_t;
  parent : option Ref;
  children : list Ref
}.

Definition Heap : Type := list Object.

Definition deref (heap : Heap) (r : Ref) : option Object := nth_error heap r.

(** Writing an object back in place; no object, no write. *)
Fixpoint store (heap : Heap) (r : Ref) (o : Object) : Heap :=
  match heap, r with
  | [], _ => []
  | _ :: heap', O => o :: heap'
  | x :: heap', S r' => x :: store heap' r' o
  end.

(** [new C(id, initialState, parent)] for the class [C] at hand. *)
Definition construct (id0 : string) (initialState : State) (parent0 : option Ref)
    (heap : Heap) : Heap * Ref :=
  (push heap {| fields := new (Err := Err) id0 initialState;
                parent := parent0; children := [] |},
   length heap).

(** [self.createChild(id, initialState)]; [this.constructor] is the class at
    hand. *)
Definition createChild (self : Ref) (id0 : string) (initialState : State)
    (heap : Heap) : Heap * Ref :=
  let '(heap1, child) := construct id0 initialState (Some self) heap in
  match deref heap1 self with
  | Some o =>
      (store heap1 self {| fields := fields o; parent := parent o;
                           children := push (children o) child |},
       child)
  | None => (heap1, child)
  end.

(** [self.getParent()] *)
Definition getParent (self : Ref) (heap : Heap) : option Ref :=
  match deref heap self with
  | Some o => parent o
  | None => None
  end.

(** Following [getParent()] [n] times from [r]. *)
Fixpoint ancestor (n : nat) (r : Ref) (heap : Heap) : option Ref :=
  match n with
  | O => Some r
  | S n' =>
      match getParent r heap with
      | Some p => ancestor n' p heap
      | None => None
      end
  end.

(** Calling one of the methods above on the object [self]. *)
Definition call {A} (self : Ref) (c : method A) (heap : Heap)
  : Heap * option (Outcome State Patch Callback Err A) :=
  match deref heap self with
  | Some o =>
      let out := c (fields o) in
      (store heap self {| fields := final out; parent := parent o;
                          children := children o |},
       Some out)
  | None => (heap, None)
  end.

(** The heaps a program can build: objects are constructed, with or without
    a parent that exists, children are created and methods are called. *)
Inductive built : Heap -> Prop :=
| built_empty : built []
| built_construct heap id0 initialState parent0 :
    built heap ->
    match parent0 with Some p => p < length heap | None => True end ->
    built (fst (construct id0 initialState parent0 heap))
| built_createChild heap self id0 initialState :
    built heap -> self < length heap ->
    built (fst (createChild self id0 initialState heap))
| built_call heap self A (c : method A) :
    built heap -> built (fst (call self c heap)).

(** Every entry of a [children] array is an object whose [parent] is the
    owner of the array, younger than the owner, and entered once. *)
Definition children_point_back (heap : Heap) : Prop :=
  forall p o, deref heap p = Some o ->
    NoDup (children o) /\
    forall c, In c (children o) ->
      p < c /\ exists oc, deref heap c = Some oc /\ parent oc = Some p.

(** A [parent] link leads to an older object. *)
Definition parents_are_older (heap : Heap) : Prop :=
  forall c oc p, deref heap c = Some oc -> parent oc = Some p -> p < c.

End Tree.

(** A root counter with two children that carry the same id, and an actor
    constructed with the root as parent but not through [createChild]. *)
Module CounterTree.

Definition root_only : Heap (State := Counter.State) (Patch := Counter.Patch)
                            (Callback := Counter.Callback) :=
  fst (construct (Err := Counter.Err) "root" {| Counter.count := 0 |} None []).

Definition with_children :=
  fst (createChild (Err := Counter.Err) 0 "child" {| Counter.count := 5 |}
         (fst (createChild (Err := Counter.Err) 0 "child" {| Counter.count := 3 |}
                 root_only))).

End CounterTree.

(** A client of the counter: its requests, a session that mixes every kind of
    call, and one made of undos, redos and subscriptions only. *)
Module CounterClient.

Definition request : Type :=
  Request (Message := Counter.Message) (Callback := Counter.Callback).

Definition mixed : list request :=
  [Subscribe 7; SendMessage Counter.increment; SendMessage Counter.unknown;
   SendMessage Counter.increment; Undo; Redo; SendMessage Counter.fail; Undo;
   SendMessage Counter.noop; Unsubscribe 7].

Definition back_and_forth : list request :=
  [Undo; Subscribe 7; Redo; Undo; Undo; Unsubscribe 7; Redo].

(** Two ways to a counter at 2 with two checkpoints on [past]; the
    checkpoints hold the same patches, but the upper one was pushed at 1 on
    the first way and at 2 on the second. *)
Definition pushed_at_1 : Actor Counter.State Counter.Patch Counter.Callback :=
  after (session [SendMessage Counter.increment; SendMessage Counter.noop;
                  SendMessage Counter.increment; Undo])
        Counter.fresh.

Definition pushed_at_2 : Actor Counter.State Counter.Patch Counter.Callback :=
  after (session [SendMessage Counter.increment; SendMessage Counter.increment;
                  Undo; SendMessage Counter.noop])
        Counter.fresh.

End CounterClient.

(** * Properties *)

(** ** Arrays as stacks *)

Section ArrayStackFacts.
Context {A : Type}.

Lemma pop_push (arr : list A) (x : A) : pop (push arr x) = Some (x, arr).
Proof.
  unfold push. induction arr as [|y arr IH]; simpl.
  - reflexivity.
  - rewrite IH. reflexivity.
Qed.

Lemma pop_nil_iff (arr : list A) : pop arr = None <-> arr = [].
Proof.
  split.
  - destruct arr as [|x arr]; simpl; [reflexivity|].
    destruct (pop arr) as [[y rest]|]; discriminate.
  - intros ->. reflexivity.
Qed.

Lemma pop_some_inv (arr : list A) (x : A) (rest : list A) :
  pop arr = Some (x, rest) -> arr = push rest x.
Proof.
  revert x rest. induction arr as [|y arr IH]; simpl; intros x rest H.
  - discriminate.
  - destruct (pop arr) as [[z r]|] eqn:E.
    + injection H as <- <-. rewrite (IH _ _ eq_refl). reflexivity.
    + injection H as <- <-. apply pop_nil_iff in E. subst. reflexivity.
Qed.

Lemma push_length (arr : list A) (x : A) : length (push arr x) = S (length arr).
Proof. unfold push. rewrite length_app. simpl. lia. Qed.

Lemma push_inj (arr arr' : list A) (x x' : A) :
  push arr x = push arr' x' -> arr = arr' /\ x = x'.
Proof. apply app_inj_tail. Qed.

Lemma push_not_nil (arr : list A) (x : A) : push arr x <> [].
Proof. unfold push. destruct arr; discriminate. Qed.

End ArrayStackFacts.

(** ** The methods *)

Section ActorFacts.
Context {State Patch Message Callback Err : Type}.
Context {message_shape : BaseMessage Message}.
Context {immer : Immer State Patch Err}.
Context {array_pattern : ArrayPattern State Patch Err}.
Context {concrete : ActorClass State Message Err}.
Context {callback_identity : Identity Callback}.

Local Abbreviation actor_t := (Actor State Patch Callback).
Local Abbreviation method := (M State Patch Callback Err).

(** ** What each method does, in closed form *)

Lemma forEach_call_run (arr : list Callback) (a : actor_t) :
  (forEach arr (fun callback => a <- this ;; emit (Call callback (state a)))
     : method unit) a
  = {| result := Normal tt; final := a;
       emitted := map (fun callback => Call callback (state a)) arr |}.
Proof.
  induction arr as [|f arr IH]; simpl.
  - reflexivity.
  - unfold bind at 1. simpl. rewrite IH. reflexivity.
Qed.

Lemma notifySubscribers_run (a : actor_t) :
  (notifySubscribers : method unit) a
  = {| result := Normal tt; final := a; emitted := notifications a (state a) |}.
Proof.
  unfold notifySubscribers, bind at 1. simpl.
  rewrite forEach_call_run. reflexivity.
Qed.

Lemma processMessage_run (message : Message) (a : actor_t) :
  processMessage message a
  = match produceWithPatches (state a) (fun draft => handleMessage draft message) with
    | Normal (newState, _, inversePatches) =>
        {| result := Normal tt;
           final := committed a newState inversePatches;
           emitted := notifications a newState |}
    | Throw e => {| result := Throw e; final := a; emitted := [] |}
    end.
Proof.
  unfold processMessage, bind, lift, set_state, set_past, set_future. simpl.
  destruct (produceWithPatches _ _) as [[[newState patches] inversePatches]|e]; simpl.
  - rewrite forEach_call_run. reflexivity.
  - reflexivity.
Qed.

Lemma undo_run (a : actor_t) :
  undo a
  = match pop (past (history a)) with
    | Some (c, rest) =>
        match patched (state a) (Checkpoint.inversePatches c) with
        | Normal (newState, newPatches) =>
            {| result := Normal tt;
               final := undone a rest newState newPatches;
               emitted := notifications a newState |}
        | Throw e =>
            {| result := Throw e; final := without_top_of_past a rest;
               emitted := [] |}
        end
    | None => {| result := Normal tt; final := a; emitted := [] |}
    end.
Proof.
  unfold undo, bind at 1. simpl.
  destruct (pop (past (history a))) as [[c rest]|] eqn:E.
  - apply pop_some_inv in E. rewrite E, push_length. simpl.
    unfold patched, bind, set_past, set_future, set_state, lift. simpl.
    destruct (applyPatches (state a) (Checkpoint.inversePatches c))
      as [applied|e]; simpl; [|reflexivity].
    destruct (destructure applied) as [[newState newPatches]|e]; simpl;
      [|reflexivity].
    rewrite forEach_call_run. reflexivity.
  - apply pop_nil_iff in E. rewrite E. reflexivity.
Qed.

Lemma redo_run (a : actor_t) :
  redo a
  = match pop (future (history a)) with
    | Some (c, rest) =>
        match patched (state a) (Checkpoint.inversePatches c) with
        | Normal (newState, newPatches) =>
            {| result := Normal tt;
               final := redone a rest newState newPatches;
               emitted := notifications a newState |}
        | Throw e =>
            {| result := Throw e; final := without_top_of_future a rest;
               emitted := [] |}
        end
    | None => {| result := Normal tt; final := a; emitted := [] |}
    end.
Proof.
  unfold redo, bind at 1. simpl.
  destruct (pop (future (history a))) as [[c rest]|] eqn:E.
  - apply pop_some_inv in E. rewrite E, push_length. simpl.
    unfold patched, bind, set_past, set_future, set_state, lift. simpl.
    destruct (applyPatches (state a) (Checkpoint.inversePatches c))
      as [applied|e]; simpl; [|reflexivity].
    destruct (destructure applied) as [[newState newPatches]|e]; simpl;
      [|reflexivity].
    rewrite forEach_call_run. reflexivity.
  - apply pop_nil_iff in E. rewrite E. reflexivity.
Qed.

Lemma patched_throws (s : State) (patches : list Patch) :
  not_iterable -> exists e, patched s patches = Throw e.
Proof.
  intros H. unfold patched.
  destruct (applyPatches s patches) as [applied|e].
  - apply H.
  - now exists e.
Qed.

(** A non-empty array is a [push]. *)
Lemma not_nil_push {X} (arr : list X) :
  arr <> [] -> exists rest x, arr = push rest x.
Proof.
  intros H. destruct (pop arr) as [[x rest]|] eqn:E.
  - exists rest, x. now apply pop_some_inv.
  - apply pop_nil_iff in E. contradiction.
Qed.

Lemma sendMessage_valid (message : Message) (a : actor_t) :
  isMessageTypeValid (type message) = true ->
  sendMessage message a = processMessage message a.
Proof. unfold sendMessage. intros ->. reflexivity. Qed.

Lemma sendMessage_committed (message : Message) (a : actor_t) newState patches inversePatches :
  isMessageTypeValid (type message) = true ->
  produceWithPatches (state a) (fun draft => handleMessage draft message)
    = Normal (newState, patches, inversePatches) ->
  sendMessage message a
  = {| result := Normal tt; final := committed a newState inversePatches;
       emitted := notifications a newState |}.
Proof.
  intros Hvalid Hproduce.
  rewrite sendMessage_valid, processMessage_run, Hproduce by assumption.
  reflexivity.
Qed.

(** ** Dispatch *)

(** C5.  Immediately after a state change produced by dispatching a valid
    message, [future] is empty, whatever it held before (in particular what
    earlier undos left there); a [redo()] that follows returns without
    touching the actor and without notifying anybody. *)
Theorem dispatch_clears_future (message : Message) (a : actor_t)
    newState patches inversePatches :
  isMessageTypeValid (type message) = true ->
  produceWithPatches (state a) (fun draft => handleMessage draft message)
    = Normal (newState, patches, inversePatches) ->
  future (history (after (sendMessage message) a)) = [] /\
  redo (after (sendMessage message) a)
  = {| result := Normal tt; final := after (sendMessage message) a;
       emitted := [] |}.
Proof.
  intros Hvalid Hproduce. unfold after.
  rewrite (sendMessage_committed _ _ Hvalid Hproduce). simpl.
  split; [reflexivity|]. rewrite redo_run. reflexivity.
Qed.

(** C6.  When the handler throws while the transition of a valid message is
    computed, [sendMessage] throws the same exception to its caller; the
    actor object is left exactly as it was (state, [past], [future] and all
    the rest) and nothing is emitted, so no subscriber is called. *)
Theorem handler_failure_is_atomic (message : Message) (a : actor_t) (e : Err) :
  produce_propagates ->
  isMessageTypeValid (type message) = true ->
  handleMessage (state a) message = Throw e ->
  sendMessage message a = {| result := Throw e; final := a; emitted := [] |}.
Proof.
  intros propagates Hvalid Hthrow.
  rewrite sendMessage_valid, processMessage_run by assumption.
  rewrite (propagates (state a) (fun draft => handleMessage draft message) e Hthrow).
  reflexivity.
Qed.

(** C7.  A message whose type [isMessageTypeValid] rejects makes
    [sendMessage] return normally; the actor object is left exactly as it was
    (state, [past], [future], subscriber list), and the only thing emitted is
    the console diagnostic: no subscriber is called. *)
Theorem unknown_message_is_inert (message : Message) (a : actor_t) :
  isMessageTypeValid (type message) = false ->
  result (sendMessage message a) = Normal tt /\
  after (sendMessage message) a = a /\
  emitted (sendMessage message a)
    = [Warn ("Unknown message type: " ++ type message)%string] /\
  (forall f s, ~ In (Call f s) (emitted (sendMessage message a))).
Proof.
  intros Hinvalid. unfold after, sendMessage. rewrite Hinvalid. simpl.
  repeat split. intros f s [H|[]]. discriminate.
Qed.

(** C9.  For a valid message whose transition is computed, [sendMessage]
    pushes exactly one checkpoint onto [past], empties [future] and calls
    every subscriber with the new state, whatever the handler did.  Under
    the engine's contract for a recipe without edits this covers the handler
    that changes nothing: [past] still grows by one checkpoint (with an empty
    patch list), [future] is still emptied and every subscriber is still
    called, with the unchanged state. *)
Theorem valid_dispatch_always_checkpoints (message : Message) (a : actor_t) :
  isMessageTypeValid (type message) = true ->
  (forall newState patches inversePatches,
     produceWithPatches (state a) (fun draft => handleMessage draft message)
       = Normal (newState, patches, inversePatches) ->
     result (sendMessage message a) = Normal tt /\
     history (after (sendMessage message) a)
       = {| past := push (past (history a)) (Checkpoint.mk newState inversePatches);
            future := [] |} /\
     state (after (sendMessage message) a) = newState /\
     emitted (sendMessage message a) = notifications a newState) /\
  (produce_no_edit ->
   handleMessage (state a) message = Normal (state a) ->
     result (sendMessage message a) = Normal tt /\
     history (after (sendMessage message) a)
       = {| past := push (past (history a)) (Checkpoint.mk (state a) []);
            future := [] |} /\
     state (after (sendMessage message) a) = state a /\
     emitted (sendMessage message a) = notifications a (state a)).
Proof.
  intros Hvalid.
  assert (general : forall newState patches inversePatches,
     produceWithPatches (state a) (fun draft => handleMessage draft message)
       = Normal (newState, patches, inversePatches) ->
     result (sendMessage message a) = Normal tt /\
     history (after (sendMessage message) a)
       = {| past := push (past (history a)) (Checkpoint.mk newState inversePatches);
            future := [] |} /\
     state (after (sendMessage message) a) = newState /\
     emitted (sendMessage message a) = notifications a newState).
  { intros newState patches inversePatches Hproduce. unfold after.
    rewrite (sendMessage_committed _ _ Hvalid Hproduce). simpl. auto. }
  split; [exact general|].
  intros no_edit Hnoop.
  apply (general (state a) [] []).
  apply (no_edit (state a) (fun draft => handleMessage draft message) Hnoop).
Qed.

(** ** Subscribers *)

Lemma subscribe_run (f : Callback) (a : actor_t) :
  (subscribe f : method _) a
  = {| result := Normal (unsubscribe f);
       final := {| id := id a; state := state a;
                   subscribers := push (subscribers a) f;
                   history := history a |};
       emitted := [] |}.
Proof. reflexivity. Qed.

Lemma unsubscribe_run (f : Callback) (a : actor_t) :
  (unsubscribe f : method _) a
  = {| result := Normal tt;
       final := {| id := id a; state := state a;
                   subscribers := filter (fun g => negb (same g f)) (subscribers a);
                   history := history a |};
       emitted := [] |}.
Proof. reflexivity. Qed.

Lemma bind_run {A B} (c : method A) (k : A -> method B) (a : actor_t) (v : A) :
  result (c a) = Normal v ->
  bind c k a
  = {| result := result (k v (final (c a)));
       final := final (k v (final (c a)));
       emitted := emitted (c a) ++ emitted (k v (final (c a))) |}.
Proof. unfold bind. intros ->. reflexivity. Qed.

Lemma subscribeAll_run (callbacks : list Callback) (a : actor_t) :
  (subscribeAll callbacks : method _) a
  = {| result := Normal tt;
       final := {| id := id a; state := state a;
                   subscribers := subscribers a ++ callbacks;
                   history := history a |};
       emitted := [] |}.
Proof.
  unfold subscribeAll. revert a.
  induction callbacks as [|f callbacks IH]; intros a.
  - simpl. unfold ret. rewrite app_nil_r. destruct a; reflexivity.
  - cbn [forEach]. rewrite (bind_run _ _ a (v := tt)) by reflexivity.
    rewrite IH. simpl. unfold push. rewrite <- app_assoc. reflexivity.
Qed.

Lemma invocations_notifications (f : Callback) (a : actor_t) (s : State) :
  invocations f (notifications a s) = registrations f a.
Proof.
  unfold invocations, registrations, notifications.
  induction (subscribers a) as [|g l IH]; simpl.
  - reflexivity.
  - destruct (same g f); simpl; rewrite IH; reflexivity.
Qed.

Lemma registrations_push (f g : Callback) (a : actor_t) (l : list Callback) :
  length (filter (fun h => same h f) (push l g))
  = length (filter (fun h => same h f) l) + (if same g f then 1 else 0).
Proof.
  unfold push. rewrite filter_app, length_app. simpl.
  destruct (same g f); reflexivity.
Qed.

Lemma same_refl (f : Callback) : same f f = true.
Proof. now apply same_spec. Qed.

(** The actor once [callbacks] have been subscribed in order. *)
Local Abbreviation subscribed callbacks a :=
  (after (subscribeAll callbacks : method unit) a).

(** C8.  The callbacks subscribed before a dispatch sit in the subscriber
    array in the order of their [subscribe] calls, after those that were
    there already; a dispatch of a valid message whose transition is computed
    calls the array's entries one after the other in that order, each entry
    once, each with the state the transition reached. *)
Theorem subscriber_fan_out (callbacks : list Callback) (message : Message)
    (a : actor_t) newState patches inversePatches :
  isMessageTypeValid (type message) = true ->
  produceWithPatches (state (subscribed callbacks a))
      (fun draft => handleMessage draft message)
    = Normal (newState, patches, inversePatches) ->
  subscribers (subscribed callbacks a) = subscribers a ++ callbacks /\
  emitted (sendMessage message (subscribed callbacks a))
    = map (fun f => Call f newState) (subscribers a ++ callbacks) /\
  state (after (sendMessage message) (subscribed callbacks a)) = newState /\
  (forall f, invocations f (emitted (sendMessage message (subscribed callbacks a)))
             = registrations f (subscribed callbacks a)).
Proof.
  intros Hvalid Hproduce. unfold after in *.
  rewrite (sendMessage_committed _ _ Hvalid Hproduce). simpl.
  rewrite subscribeAll_run. simpl. repeat split.
  intros f. apply (invocations_notifications f
    {| id := id a; state := state a; subscribers := subscribers a ++ callbacks;
       history := history a |} newState).
Qed.

(** C10.  Unsubscription goes by the identity of the callback.  Every
    [subscribe(f)] adds one more registration of [f], also when [f] is
    registered already, and returns a closure with the same behaviour; a
    dispatch calls [f] once per registration; and running the closure on the
    actor, however many registrations of [f] it holds by then, leaves none
    of them (the other callbacks keep their entries and their order). *)
Theorem unsubscribe_removes_every_registration (f : Callback) (message : Message)
    (a b : actor_t) newState patches inversePatches :
  isMessageTypeValid (type message) = true ->
  produceWithPatches (state b) (fun draft => handleMessage draft message)
    = Normal (newState, patches, inversePatches) ->
  result ((subscribe f : method _) a) = Normal (unsubscribe f) /\
  registrations f (after (subscribe f : method _) a) = S (registrations f a) /\
  invocations f (emitted (sendMessage message b)) = registrations f b /\
  registrations f (after (unsubscribe f : method _) b) = 0 /\
  subscribers (after (unsubscribe f : method _) b)
    = filter (fun g => negb (same g f)) (subscribers b).
Proof.
  intros Hvalid Hproduce. unfold after.
  rewrite (sendMessage_committed _ _ Hvalid Hproduce), subscribe_run, unsubscribe_run.
  simpl. repeat split.
  - unfold registrations. simpl. rewrite (registrations_push f f a), same_refl. lia.
  - apply invocations_notifications.
  - unfold registrations. simpl.
    induction (subscribers b) as [|g l IH]; simpl; [reflexivity|].
    destruct (same g f) eqn:E; simpl; [exact IH|]. rewrite E. exact IH.
Qed.

(** ** What a dispatch records *)

Lemma dispatch_records_reached_state (message : Message) (a : actor_t)
    newState patches inversePatches :
  isMessageTypeValid (type message) = true ->
  produceWithPatches (state a) (fun draft => handleMessage draft message)
    = Normal (newState, patches, inversePatches) ->
  option_map (@Checkpoint.state _ _) (top (past (history (after (sendMessage message) a))))
  = Some (state (after (sendMessage message) a)).
Proof.
  intros Hvalid Hproduce. unfold after, top.
  rewrite (sendMessage_committed _ _ Hvalid Hproduce). simpl.
  rewrite pop_push. reflexivity.
Qed.

End ActorFacts.

(** ** The counter keeps what the theorems assume *)

Lemma counter_produce_propagates : produce_propagates (immer := Counter.immer).
Proof. intros s recipe e H. simpl. rewrite H. reflexivity. Qed.

Lemma counter_produce_no_edit : produce_no_edit (immer := Counter.immer).
Proof. intros s recipe H. simpl. rewrite H, Z.eqb_refl. reflexivity. Qed.

Lemma counter_not_iterable : not_iterable (array_pattern := Counter.array_pattern).
Proof. intros s. now exists Counter.not_iterable_error. Qed.

(** ** The theorems at work on the counter *)

Lemma dispatch_clears_future_counter :
  future (history (after (sendMessage Counter.increment) Counter.rewound)) = [] /\
  redo (after (sendMessage Counter.increment) Counter.rewound)
  = {| result := Normal tt;
       final := after (sendMessage Counter.increment) Counter.rewound;
       emitted := [] |}.
Proof.
  apply (dispatch_clears_future Counter.increment Counter.rewound
           (newState := {| Counter.count := 2 |})
           (patches := [Counter.replace_count 2])
           (inversePatches := [Counter.replace_count 1])).
  - reflexivity.
  - reflexivity.
Defined.

Lemma handler_failure_is_atomic_counter :
  sendMessage Counter.fail Counter.watched
  = {| result := Throw "fail"%string; final := Counter.watched; emitted := [] |}.
Proof.
  apply (handler_failure_is_atomic Counter.fail Counter.watched).
  - exact counter_produce_propagates.
  - reflexivity.
  - reflexivity.
Defined.

Lemma unknown_message_is_inert_counter :
  result (sendMessage Counter.unknown Counter.watched) = Normal tt /\
  after (sendMessage Counter.unknown) Counter.watched = Counter.watched /\
  emitted (sendMessage Counter.unknown Counter.watched)
    = [Warn "Unknown message type: decrement"] /\
  (forall f s, ~ In (Call f s) (emitted (sendMessage Counter.unknown Counter.watched))).
Proof.
  exact (unknown_message_is_inert Counter.unknown Counter.watched eq_refl).
Defined.

Lemma subscriber_fan_out_counter :
  emitted (sendMessage Counter.increment
             (after (subscribeAll [7; 8; 9] : Counter.method unit) Counter.once))
  = [Call 7 {| Counter.count := 2 |}; Call 8 {| Counter.count := 2 |};
     Call 9 {| Counter.count := 2 |}].
Proof.
  apply (subscriber_fan_out [7; 8; 9] Counter.increment Counter.once
           (newState := {| Counter.count := 2 |})
           (patches := [Counter.replace_count 2])
           (inversePatches := [Counter.replace_count 1])).
  - reflexivity.
  - reflexivity.
Defined.

Lemma valid_dispatch_always_checkpoints_counter :
  history (after (sendMessage Counter.noop) Counter.rewound)
    = {| past := [Checkpoint.mk {| Counter.count := 1 |} []]; future := [] |} /\
  state (after (sendMessage Counter.noop) Counter.rewound) = {| Counter.count := 1 |} /\
  history (after (sendMessage Counter.increment) Counter.rewound)
    = {| past := [Checkpoint.mk {| Counter.count := 2 |} [Counter.replace_count 1]];
         future := [] |}.
Proof.
  assert (Vnoop : isMessageTypeValid (type Counter.noop) = true) by reflexivity.
  assert (Vincrement : isMessageTypeValid (type Counter.increment) = true)
    by reflexivity.
  destruct (valid_dispatch_always_checkpoints Counter.noop Counter.rewound Vnoop)
    as [_ Hnoop].
  destruct (Hnoop counter_produce_no_edit eq_refl) as (_ & Hhistory & Hstate & _).
  destruct (valid_dispatch_always_checkpoints Counter.increment Counter.rewound
              Vincrement) as [Hgeneral _].
  destruct (Hgeneral {| Counter.count := 2 |} [Counter.replace_count 2]
              [Counter.replace_count 1] eq_refl) as (_ & Hhistory' & _).
  exact (conj Hhistory (conj Hstate Hhistory')).
Defined.

Lemma unsubscribe_removes_every_registration_counter :
  registrations 7 Counter.watched = 2 /\
  invocations 7 (emitted (sendMessage Counter.increment Counter.watched)) = 2 /\
  registrations 7 (after (unsubscribe 7 : Counter.method unit) Counter.watched) = 0 /\
  subscribers (after (unsubscribe 7 : Counter.method unit) Counter.watched) = [8].
Proof.
  assert (V : isMessageTypeValid (type Counter.increment) = true) by reflexivity.
  assert (P : produceWithPatches (state Counter.watched)
                (fun draft => handleMessage draft Counter.increment)
              = Normal ({| Counter.count := 1 |}, [Counter.replace_count 1],
                        [Counter.replace_count 0])) by reflexivity.
  destruct (unsubscribe_removes_every_registration 7 Counter.increment
              Counter.fresh Counter.watched V P)
    as (_ & _ & Hcalls & Hnone & Hrest).
  split; [reflexivity|].
  exact (conj Hcalls (conj Hnone Hrest)).
Defined.

(** ** Where the code departs from the specification

    All four of the following come from lines 127 and 141: [applyPatches]
    returns the patched state, and binding a counter state to the array
    pattern throws after the checkpoint has been popped. *)

(** C1 on the counter after one [increment], with [n = 1]: the [undo()]
    throws, so the cycle of one undo and one redo stops there, and the
    checkpoint that was on [past] is gone; it is gone as well when the caller
    catches the exception and goes on to call [redo()]. *)
Theorem undo_redo_cycle_loses_checkpoint :
  1 <= length (past (history Counter.once)) /\
  result ((times 1 undo ;; times 1 redo) Counter.once)
    = Throw Counter.not_iterable_error /\
  past (history Counter.once)
    = [Checkpoint.mk {| Counter.count := 1 |} [Counter.replace_count 0]] /\
  past (history (after (times 1 undo ;; times 1 redo) Counter.once)) = [] /\
  past (history (after (session [Undo; Redo]) Counter.once)) = [].
Proof. vm_compute. repeat split. constructor. Qed.

(** C2 on a fresh counter at 0 after [increment], [noop], [increment]: the
    first [undo()] throws; with the exceptions caught, three [undo()] calls
    empty [past] but leave the state at 2, not at the initial 0. *)
Theorem round_trip_stops_at_first_undo :
  result (times 3 undo
            (after (forEach [Counter.increment; Counter.noop; Counter.increment]
                      sendMessage)
                   Counter.fresh))
    = Throw Counter.not_iterable_error /\
  state (after (session [Undo; Undo; Undo])
           (after (forEach [Counter.increment; Counter.noop; Counter.increment]
                     sendMessage)
                  Counter.fresh))
    = {| Counter.count := 2 |} /\
  past (history (after (session [Undo; Undo; Undo])
                   (after (forEach [Counter.increment; Counter.noop; Counter.increment]
                             sendMessage)
                          Counter.fresh)))
    = [] /\
  state Counter.fresh = {| Counter.count := 0 |}.
Proof. vm_compute. repeat split. Qed.

(** C3 on the counter after two [increment]s: the [undo()] pops the top
    checkpoint and throws before it assigns the state, so [past] is left
    with the checkpoint of the first dispatch, holding [{count: 1}], on top,
    under the current state [{count: 2}]. *)
Theorem failed_undo_leaves_older_checkpoint_on_top :
  result (undo Counter.twice) = Throw Counter.not_iterable_error /\
  past (history (after undo Counter.twice)) <> [] /\
  option_map (@Checkpoint.state _ _)
    (top (past (history (after undo Counter.twice))))
    = Some {| Counter.count := 1 |} /\
  state (after undo Counter.twice) = {| Counter.count := 2 |}.
Proof. vm_compute. repeat split. discriminate. Qed.

(** C4 on the counter after one [increment]: [undo()] does not return, it
    throws, and so does the sequence of [undo()] and [redo()]; the state is
    not taken back to [{count: 0}], nothing is put on [future], and a
    [redo()] called after catching the exception finds nothing to redo. *)
Theorem undo_throws_instead_of_undoing :
  past (history Counter.once) <> [] /\
  result (undo Counter.once) = Throw Counter.not_iterable_error /\
  result ((undo ;; redo) Counter.once) = Throw Counter.not_iterable_error /\
  state (after undo Counter.once) = {| Counter.count := 1 |} /\
  history (after undo Counter.once) = {| past := []; future := [] |} /\
  redo (after undo Counter.once)
    = {| result := Normal tt; final := after undo Counter.once; emitted := [] |}.
Proof. vm_compute. repeat split. discriminate. Qed.

(** * Further properties of the class *)

Section ClientFacts.
Context {State Patch Message Callback Err : Type}.
Context {message_shape : BaseMessage Message}.
Context {immer : Immer State Patch Err}.
Context {array_pattern : ArrayPattern State Patch Err}.
Context {concrete : ActorClass State Message Err}.
Context {callback_identity : Identity Callback}.

Local Abbreviation actor_t := (Actor State Patch Callback).
Local Abbreviation method := (M State Patch Callback Err).
Local Abbreviation request := (Request (Message := Message) (Callback := Callback)).

(** ** Sessions, one request at a time *)

Lemma session_nil (a : actor_t) :
  session [] a = {| result := Normal tt; final := a; emitted := [] |}.
Proof. reflexivity. Qed.

Lemma session_cons (r : request) (requests : list request) (a : actor_t) :
  session (r :: requests) a
  = {| result := result (session requests (after (perform r) a));
       final := after (session requests) (after (perform r) a);
       emitted := emitted (perform r a)
                  ++ emitted (session requests (after (perform r) a)) |}.
Proof. reflexivity. Qed.

Lemma after_session_cons (r : request) (requests : list request) (a : actor_t) :
  after (session (r :: requests)) a
  = after (session requests) (after (perform r) a).
Proof. reflexivity. Qed.

Lemma emitted_session_cons (r : request) (requests : list request) (a : actor_t) :
  emitted (session (r :: requests) a)
  = emitted (perform r a) ++ emitted (session requests (after (perform r) a)).
Proof. reflexivity. Qed.

(** What one request does, case by case. *)
Lemma perform_cases (r : request) (a : actor_t) :
  (perform r a = {| result := Normal tt; final := a; emitted := [] |}) \/
  (exists text, perform r a
                = {| result := Normal tt; final := a; emitted := [Warn text] |}) \/
  (exists e, perform r a = {| result := Throw e; final := a; emitted := [] |}) \/
  (exists newState inversePatches,
     perform r a = {| result := Normal tt;
                      final := committed a newState inversePatches;
                      emitted := notifications a newState |}) \/
  (exists c rest newState newPatches, past (history a) = push rest c /\
     perform r a = {| result := Normal tt;
                      final := undone a rest newState newPatches;
                      emitted := notifications a newState |}) \/
  (exists c rest e, past (history a) = push rest c /\
     perform r a = {| result := Throw e; final := without_top_of_past a rest;
                      emitted := [] |}) \/
  (exists c rest newState newPatches, future (history a) = push rest c /\
     perform r a = {| result := Normal tt;
                      final := redone a rest newState newPatches;
                      emitted := notifications a newState |}) \/
  (exists c rest e, future (history a) = push rest c /\
     perform r a = {| result := Throw e; final := without_top_of_future a rest;
                      emitted := [] |}) \/
  (exists l, perform r a
             = {| result := Normal tt;
                  final := {| id := id a; state := state a; subscribers := l;
                              history := history a |};
                  emitted := [] |}).
Proof.
  destruct r as [message| | |f|f]; simpl.
  - destruct (isMessageTypeValid (type message)) eqn:V.
    + rewrite sendMessage_valid, processMessage_run by exact V.
      destruct (produceWithPatches _ _) as [[[newState patches] inversePatches]|e].
      * right. right. right. left. now exists newState, inversePatches.
      * right. right. left. now exists e.
    + right. left. unfold sendMessage. rewrite V. simpl. eexists. reflexivity.
  - rewrite undo_run. destruct (pop (past (history a))) as [[c rest]|] eqn:E.
    + apply pop_some_inv in E.
      destruct (patched _ _) as [[newState newPatches]|e].
      * do 4 right. left. now exists c, rest, newState, newPatches.
      * do 5 right. left. now exists c, rest, e.
    + now left.
  - rewrite redo_run. destruct (pop (future (history a))) as [[c rest]|] eqn:E.
    + apply pop_some_inv in E.
      destruct (patched _ _) as [[newState newPatches]|e].
      * do 6 right. left. now exists c, rest, newState, newPatches.
      * do 7 right. left. now exists c, rest, e.
    + now left.
  - do 8 right. exists (push (subscribers a) f). reflexivity.
  - do 8 right. eexists. reflexivity.
Qed.

(** ** Undo and redo, one call *)

(** X1.  [undo()] on an actor whose [past] is empty and [redo()] on an actor
    whose [future] is empty return at once: the object is left as it was and
    nothing is emitted, so no subscriber is called. *)
Theorem empty_history_calls_are_inert (a : actor_t) :
  (past (history a) = [] ->
   undo a = {| result := Normal tt; final := a; emitted := [] |}) /\
  (future (history a) = [] ->
   redo a = {| result := Normal tt; final := a; emitted := [] |}).
Proof.
  split; intros E.
  - rewrite undo_run, E. reflexivity.
  - rewrite redo_run, E. reflexivity.
Qed.

(** X2.  When states are not iterable, [undo()] on an actor whose [past] is
    not empty takes the top checkpoint off [past] and then throws: the state,
    [future] and the subscriber array are as before, and no subscriber is
    called.  The checkpoint is lost. *)
Theorem undo_drops_checkpoint_and_throws (a : actor_t) :
  not_iterable ->
  past (history a) <> [] ->
  exists c e,
    past (history a) = push (past (history (after undo a))) c /\
    result (undo a) = Throw e /\
    state (after undo a) = state a /\
    future (history (after undo a)) = future (history a) /\
    subscribers (after undo a) = subscribers a /\
    emitted (undo a) = [].
Proof.
  intros Hshape Hpast. destruct (not_nil_push Hpast) as (rest & c & E).
  destruct (patched_throws (state a) (Checkpoint.inversePatches c) Hshape)
    as [e He].
  exists c, e. unfold after. rewrite undo_run, E, pop_push, He. simpl.
  repeat split.
Qed.

Lemma firstn_push {X} (k : nat) (arr : list X) (x : X) :
  k <= length arr -> firstn k (push arr x) = firstn k arr.
Proof.
  intros H. unfold push. rewrite firstn_app.
  replace (k - length arr) with 0 by lia. simpl. apply app_nil_r.
Qed.

(** X3.  When states are not iterable, [n] calls of [undo()] whose
    exceptions the caller catches, for [n] not above the length of [past],
    remove exactly the top [n] checkpoints from [past] and change nothing
    else: the state and [future] are as before. *)
Theorem caught_undos_drop_top_checkpoints (n : nat) (a : actor_t) :
  not_iterable ->
  n <= length (past (history a)) ->
  past (history (after (session (repeat (Undo : request) n)) a))
    = firstn (length (past (history a)) - n) (past (history a)) /\
  state (after (session (repeat (Undo : request) n)) a) = state a /\
  future (history (after (session (repeat (Undo : request) n)) a))
    = future (history a).
Proof.
  intros Hshape. revert a. induction n as [|n IH]; intros a Hn.
  - simpl. rewrite Nat.sub_0_r, firstn_all. auto.
  - assert (Hpast : past (history a) <> []).
    { intros E. rewrite E in Hn. simpl in Hn. lia. }
    destruct (not_nil_push Hpast) as (rest & c & E).
    destruct (patched_throws (state a) (Checkpoint.inversePatches c) Hshape)
      as [e He].
    assert (Hundo : after (perform (Undo : request)) a = without_top_of_past a rest).
    { unfold after. cbn [perform]. rewrite undo_run, E, pop_push, He. reflexivity. }
    cbn [repeat]. rewrite after_session_cons, Hundo.
    rewrite E, push_length in Hn |- *.
    destruct (IH (without_top_of_past a rest)) as (Hp & Hs & Hf).
    { simpl. lia. }
    simpl in Hp, Hs, Hf. rewrite Hp, Hs, Hf. repeat split.
    symmetry. apply firstn_push. lia.
Qed.

(** ** What a session keeps *)

Lemma perform_size (r : request) (a : actor_t) :
  is_send r = false ->
  length (past (history (after (perform r) a)))
  + length (future (history (after (perform r) a)))
  <= length (past (history a)) + length (future (history a)).
Proof.
  intros Hr. unfold after.
  destruct r as [message| | |f|f]; try discriminate Hr; cbn [perform].
  - rewrite undo_run. destruct (pop (past (history a))) as [[c rest]|] eqn:E;
      [|reflexivity].
    apply pop_some_inv in E. rewrite E.
    destruct (patched _ _) as [[newState newPatches]|e]; simpl;
      rewrite !push_length; lia.
  - rewrite redo_run. destruct (pop (future (history a))) as [[c rest]|] eqn:E;
      [|reflexivity].
    apply pop_some_inv in E. rewrite E.
    destruct (patched _ _) as [[newState newPatches]|e]; simpl;
      rewrite !push_length; lia.
  - reflexivity.
  - reflexivity.
Qed.

(** X4.  Whatever undos, redos, subscriptions and unsubscriptions a client
    makes, in whatever order and whether they throw or not, the two stacks
    together never hold more checkpoints than before: only a dispatch adds
    one. *)
Theorem history_size_never_grows (requests : list request) (a : actor_t) :
  forallb (fun r => negb (is_send r)) requests = true ->
  length (past (history (after (session requests) a)))
  + length (future (history (after (session requests) a)))
  <= length (past (history a)) + length (future (history a)).
Proof.
  revert a. induction requests as [|r requests IH]; intros a H.
  - reflexivity.
  - simpl in H. apply andb_prop in H as [Hr H].
    rewrite after_session_cons.
    etransitivity; [apply IH; exact H|].
    apply perform_size. now apply negb_true_iff in Hr.
Qed.

Lemma perform_id (r : request) (a : actor_t) :
  id (after (perform r) a) = id a.
Proof.
  unfold after.
  destruct (perform_cases r a)
    as [E|[[text E]|[[e E]|[(s & p & E)|[(c & rest & s & p & _ & E)|[(c & rest & e & _ & E)|[(c & rest & s & p & _ & E)|[(c & rest & e & _ & E)|[l E]]]]]]]]];
    rewrite E; reflexivity.
Qed.

(** X5.  [getId()] returns the id the constructor was given, whatever calls
    were made on the actor in between: no method assigns the field. *)
Theorem getId_is_stable (id0 : string) (initialState : State)
    (requests : list request) :
  result ((getId : method string)
            (after (session requests) (new (Err := Err) id0 initialState)))
  = Normal id0.
Proof.
  assert (H : forall b : actor_t, id (after (session requests) b) = id b).
  { induction requests as [|r requests IH]; intros b.
    - reflexivity.
    - rewrite after_session_cons, IH. apply perform_id. }
  change (Normal (Err := Err)
            (id (after (session requests)
                   (new (Err := Err) id0 initialState : actor_t)))
          = Normal id0).
  rewrite H. reflexivity.
Qed.

Lemma perform_subscribers (r : request) (a : actor_t) :
  is_subscription r = false ->
  subscribers (after (perform r) a) = subscribers a.
Proof.
  intros Hr. unfold after.
  destruct r as [message| | |f|f]; try discriminate Hr; cbn [perform].
  - destruct (isMessageTypeValid (type message)) eqn:V.
    + rewrite sendMessage_valid, processMessage_run by exact V.
      destruct (produceWithPatches _ _) as [[[s0 p0] i0]|e0]; reflexivity.
    + unfold sendMessage. rewrite V. reflexivity.
  - rewrite undo_run. destruct (pop _) as [[c rest]|]; [|reflexivity].
    destruct (patched _ _) as [[newState newPatches]|e]; reflexivity.
  - rewrite redo_run. destruct (pop _) as [[c rest]|]; [|reflexivity].
    destruct (patched _ _) as [[newState newPatches]|e]; reflexivity.
Qed.

Lemma perform_subscription (r : request) (a : actor_t) :
  is_subscription r = true ->
  state (after (perform r) a) = state a /\
  history (after (perform r) a) = history a /\
  emitted (perform r a) = [].
Proof.
  intros Hr. destruct r; try discriminate Hr; repeat split.
Qed.

(** X6.  Subscriptions and history do not touch each other.  A session of
    dispatches, undos and redos leaves the subscriber array as it was; a
    session of subscriptions and unsubscriptions leaves the state and both
    stacks as they were and makes no call to any subscriber. *)
Theorem subscriptions_and_history_are_separate (requests : list request)
    (a : actor_t) :
  (forallb (fun r => negb (is_subscription r)) requests = true ->
   subscribers (after (session requests) a) = subscribers a) /\
  (forallb is_subscription requests = true ->
   state (after (session requests) a) = state a /\
   history (after (session requests) a) = history a /\
   emitted (session requests a) = []).
Proof.
  split; revert a; induction requests as [|r requests IH]; intros a H.
  - reflexivity.
  - simpl in H. apply andb_prop in H as [Hr H].
    rewrite after_session_cons, IH by exact H.
    apply perform_subscribers. now apply negb_true_iff in Hr.
  - repeat split.
  - simpl in H. apply andb_prop in H as [Hr H].
    destruct (perform_subscription r a Hr) as (Hs & Hh & He).
    destruct (IH (after (perform r) a) H) as (Hs' & Hh' & He').
    rewrite after_session_cons, emitted_session_cons, Hs', Hh', He', He.
    auto.
Qed.

(** ** Undo and redo when states are not iterable *)

Lemma perform_keeps_state (r : request) (a : actor_t) :
  not_iterable ->
  is_send r = false ->
  state (after (perform r) a) = state a /\ emitted (perform r a) = [].
Proof.
  intros Hshape Hr. unfold after.
  destruct r as [message| | |f|f]; try discriminate Hr; cbn [perform].
  - rewrite undo_run. destruct (pop _) as [[c rest]|]; [|now split].
    destruct (patched_throws (state a) (Checkpoint.inversePatches c) Hshape)
      as [e ->]. now split.
  - rewrite redo_run. destruct (pop _) as [[c rest]|]; [|now split].
    destruct (patched_throws (state a) (Checkpoint.inversePatches c) Hshape)
      as [e ->]. now split.
  - now split.
  - now split.
Qed.

(** X7.  When states are not iterable, no sequence of undos, redos,
    subscriptions and unsubscriptions changes the state of an actor or has
    any subscriber called (nor any diagnostic written): only a dispatch
    does. *)
Theorem undo_and_redo_never_change_state (requests : list request) (a : actor_t) :
  not_iterable ->
  forallb (fun r => negb (is_send r)) requests = true ->
  state (after (session requests) a) = state a /\
  emitted (session requests a) = [].
Proof.
  intros Hshape. revert a. induction requests as [|r requests IH]; intros a H.
  - now split.
  - simpl in H. apply andb_prop in H as [Hr H]. apply negb_true_iff in Hr.
    destruct (perform_keeps_state r a Hshape Hr) as [Hs He].
    destruct (IH (after (perform r) a) H) as [Hs' He'].
    rewrite after_session_cons, emitted_session_cons, Hs', He', Hs, He.
    now split.
Qed.

(** X8.  When states are not iterable, an [undo()] right after the dispatch
    of a valid message whose transition was computed throws and does not take
    the dispatch back: the state stays the one the dispatch reached, while
    [past] is again what it was before the dispatch, [future] stays empty and
    no subscriber is called, so the dispatch can neither be undone nor
    redone afterwards. *)
Theorem undo_after_dispatch_forgets_it (message : Message) (a : actor_t)
    newState patches inversePatches :
  not_iterable ->
  isMessageTypeValid (type message) = true ->
  produceWithPatches (state a) (fun draft => handleMessage draft message)
    = Normal (newState, patches, inversePatches) ->
  exists e,
    undo (after (sendMessage message) a)
    = {| result := Throw e;
         final := {| id := id a; state := newState;
                     subscribers := subscribers a;
                     history := {| past := past (history a); future := [] |} |};
         emitted := [] |}.
Proof.
  intros Hshape Hvalid Hproduce.
  assert (E : after (sendMessage message) a = committed a newState inversePatches).
  { unfold after. rewrite (sendMessage_committed _ _ Hvalid Hproduce). reflexivity. }
  destruct (patched_throws newState inversePatches Hshape) as [e He].
  exists e. rewrite E, undo_run. unfold committed at 1. cbn [history past].
  rewrite pop_push. cbn [Checkpoint.inversePatches state committed]. rewrite He.
  reflexivity.
Qed.

Lemma perform_keeps_future_empty (r : request) (a : actor_t) :
  not_iterable ->
  future (history a) = [] ->
  future (history (after (perform r) a)) = [].
Proof.
  intros Hshape H. unfold after.
  destruct r as [message| | |f|f]; cbn [perform].
  - destruct (isMessageTypeValid (type message)) eqn:V.
    + rewrite sendMessage_valid, processMessage_run by exact V.
      destruct (produceWithPatches _ _) as [[[s0 p0] i0]|e0]; [reflexivity|exact H].
    + unfold sendMessage. rewrite V. exact H.
  - rewrite undo_run. destruct (pop _) as [[c rest]|]; [|exact H].
    destruct (patched_throws (state a) (Checkpoint.inversePatches c) Hshape)
      as [e ->]. exact H.
  - rewrite redo_run, H. exact H.
  - exact H.
  - exact H.
Qed.

(** X9.  When states are not iterable, [future] is empty after every
    sequence of calls on a freshly constructed actor, so that every [redo()]
    returns at its guard without doing anything: nothing is ever redone. *)
Theorem future_is_never_filled (id0 : string) (initialState : State)
    (requests : list request) :
  not_iterable ->
  future (history (after (session requests)
                     (new (Err := Err) id0 initialState))) = [] /\
  redo (after (session requests) (new (Err := Err) id0 initialState))
  = {| result := Normal tt;
       final := after (session requests) (new (Err := Err) id0 initialState);
       emitted := [] |}.
Proof.
  intros Hshape.
  assert (H : forall a : actor_t, future (history a) = [] ->
                future (history (after (session requests) a)) = []).
  { induction requests as [|r requests IH]; intros a H.
    - exact H.
    - rewrite after_session_cons. apply IH.
      now apply perform_keeps_future_empty. }
  assert (E : future (history (after (session requests)
                 (new (Err := Err) id0 initialState : actor_t))) = []).
  { apply H. reflexivity. }
  split; [exact E|]. rewrite redo_run, E. reflexivity.
Qed.

(** ** Unsubscribing *)

Lemma filter_other_absent (f : Callback) (l : list Callback) :
  ~ In f l -> filter (fun g => negb (same g f)) l = l.
Proof.
  induction l as [|g l IH]; intros H; simpl.
  - reflexivity.
  - destruct (same g f) eqn:E.
    + apply same_spec in E. subst. exfalso. apply H. now left.
    + simpl. rewrite IH; [reflexivity|]. intros Hin. apply H. now right.
Qed.

Lemma filter_other_removes (f : Callback) (l : list Callback) :
  ~ In f (filter (fun g => negb (same g f)) l).
Proof.
  intros H. apply filter_In in H as [_ H].
  rewrite same_refl in H. discriminate.
Qed.

(** X10.  Running an unsubscribe closure a second time changes nothing, and
    running it when its callback is not in the subscriber array (any more)
    leaves the array as it is. *)
Theorem unsubscribe_is_idempotent (f : Callback) (a : actor_t) :
  after (unsubscribe f : method unit) (after (unsubscribe f : method unit) a)
    = after (unsubscribe f : method unit) a /\
  (~ In f (subscribers a) ->
   subscribers (after (unsubscribe f : method unit) a) = subscribers a).
Proof.
  unfold after. rewrite !unsubscribe_run. simpl. split.
  - f_equal. apply filter_other_absent, filter_other_removes.
  - apply filter_other_absent.
Qed.

(** X11.  Subscribing a callback that is not in the subscriber array and
    then running the closure that [subscribe] returned gives back the actor
    object exactly as it was. *)
Theorem subscribe_then_unsubscribe (f : Callback) (a : actor_t) :
  ~ In f (subscribers a) ->
  after (unsubscribe f : method unit) (after (subscribe f : method _) a) = a.
Proof.
  intros H. unfold after. rewrite subscribe_run, unsubscribe_run. simpl.
  unfold push. rewrite filter_app, filter_other_absent by exact H. simpl.
  rewrite same_refl. simpl. rewrite app_nil_r. destruct a. reflexivity.
Qed.

Lemma called_notifications (a : actor_t) (s : State) :
  called (notifications a s) = subscribers a.
Proof.
  unfold called, notifications.
  induction (subscribers a) as [|g l IH]; simpl; [reflexivity|].
  now rewrite IH.
Qed.

Lemma perform_calls_subscribers (r : request) (a : actor_t) (f : Callback) :
  In f (called (emitted (perform r a))) -> In f (subscribers a).
Proof.
  destruct (perform_cases r a)
    as [E|[[text E]|[[e E]|[(s & p & E)|[(c & rest & s & p & _ & E)|[(c & rest & e & _ & E)|[(c & rest & s & p & _ & E)|[(c & rest & e & _ & E)|[l E]]]]]]]]];
    rewrite E; simpl; try contradiction;
    rewrite called_notifications; trivial.
Qed.

Lemma perform_keeps_absent (r : request) (a : actor_t) (f : Callback) :
  subscribes f r = false ->
  ~ In f (subscribers a) -> ~ In f (subscribers (after (perform r) a)).
Proof.
  intros Hr H. destruct (is_subscription r) eqn:S.
  - destruct r as [message| | |g|g]; try discriminate S; unfold after; simpl.
    + unfold push. rewrite in_app_iff. intros [Hin|[->|[]]]; [now apply H|].
      simpl in Hr. rewrite same_refl in Hr. discriminate.
    + intros Hin. apply filter_In in Hin as [Hin _]. now apply H.
  - now rewrite perform_subscribers.
Qed.

(** X12.  Once the closure returned by [subscribe(f)] has run, [f] is not
    called again, whatever the client does next, as long as [f] is not
    subscribed anew. *)
Theorem unsubscribed_callback_is_never_called (f : Callback)
    (requests : list request) (a : actor_t) :
  forallb (fun r => negb (subscribes f r)) requests = true ->
  ~ In f (called (emitted (session requests
                             (after (unsubscribe f : method unit) a)))).
Proof.
  intros H.
  assert (G : forall b : actor_t, ~ In f (subscribers b) ->
                ~ In f (called (emitted (session requests b)))).
  { induction requests as [|r requests IH]; intros b Hb.
    - simpl. tauto.
    - simpl in H. apply andb_prop in H as [Hr H]. apply negb_true_iff in Hr.
      rewrite emitted_session_cons. unfold called. rewrite flat_map_app.
      rewrite in_app_iff. intros [Hin|Hin].
      + apply Hb. now apply (perform_calls_subscribers r).
      + revert Hin. apply (IH H). now apply perform_keeps_absent. }
  apply G. unfold after. rewrite unsubscribe_run. simpl.
  apply filter_other_removes.
Qed.

(** ** Diagnostics *)

Lemma warnings_notifications (a : actor_t) (s : State) :
  warnings (notifications a s) = [].
Proof.
  unfold warnings, notifications.
  induction (subscribers a) as [|g l IH]; simpl; [reflexivity|exact IH].
Qed.

Lemma warnings_perform (r : request) (a : actor_t) :
  warnings (emitted (perform r a)) = unknown_types [r].
Proof.
  destruct r as [message| | |f|f]; cbn [perform unknown_types flat_map].
  - destruct (isMessageTypeValid (type message)) eqn:V.
    + rewrite sendMessage_valid, processMessage_run by exact V.
      destruct (produceWithPatches _ _) as [[[s0 p0] i0]|e0]; simpl;
        [apply warnings_notifications|reflexivity].
    + unfold sendMessage. rewrite V. reflexivity.
  - rewrite undo_run. destruct (pop _) as [[c rest]|]; [|reflexivity].
    destruct (patched _ _) as [[newState newPatches]|e]; simpl;
      [apply warnings_notifications|reflexivity].
  - rewrite redo_run. destruct (pop _) as [[c rest]|]; [|reflexivity].
    destruct (patched _ _) as [[newState newPatches]|e]; simpl;
      [apply warnings_notifications|reflexivity].
  - reflexivity.
  - reflexivity.
Qed.

(** X13.  In any session, the diagnostics written to the console are
    exactly one per dispatched message of a type [isMessageTypeValid]
    rejects, in the order of the dispatches and naming the type; nothing else
    the client calls writes one. *)
Theorem warnings_are_the_unknown_types (requests : list request) (a : actor_t) :
  warnings (emitted (session requests a)) = unknown_types requests.
Proof.
  revert a. induction requests as [|r requests IH]; intros a.
  - reflexivity.
  - rewrite emitted_session_cons. unfold warnings. rewrite flat_map_app.
    fold (warnings (emitted (perform r a))).
    fold (warnings (emitted (session requests (after (perform r) a)))).
    rewrite warnings_perform, IH.
    change (r :: requests) with ([r] ++ requests).
    unfold unknown_types. rewrite flat_map_app. reflexivity.
Qed.

(** ** The state kept in a checkpoint *)

Lemma patch_lists_push (arr : list (Checkpoint.t State Patch)) c :
  patch_lists (push arr c) = push (patch_lists arr) (Checkpoint.inversePatches c).
Proof. unfold patch_lists, push. now rewrite map_app. Qed.

Lemma patch_lists_pop (arr arr' : list (Checkpoint.t State Patch)) :
  patch_lists arr = patch_lists arr' ->
  match pop arr, pop arr' with
  | None, None => True
  | Some (c, rest), Some (c', rest') =>
      Checkpoint.inversePatches c = Checkpoint.inversePatches c' /\
      patch_lists rest = patch_lists rest'
  | _, _ => False
  end.
Proof.
  intros H.
  destruct (pop arr) as [[c rest]|] eqn:E; destruct (pop arr') as [[c' rest']|] eqn:E'.
  - apply pop_some_inv in E, E'. subst.
    rewrite !patch_lists_push in H. apply push_inj in H. tauto.
  - apply pop_some_inv in E. apply pop_nil_iff in E'. subst.
    rewrite patch_lists_push in H. now apply push_not_nil in H.
  - apply pop_nil_iff in E. apply pop_some_inv in E'. subst.
    rewrite patch_lists_push in H. symmetry in H. now apply push_not_nil in H.
  - exact I.
Qed.

Lemma alike_perform (r : request) (a b : actor_t) :
  alike a b ->
  result (perform r a) = result (perform r b) /\
  emitted (perform r a) = emitted (perform r b) /\
  alike (after (perform r) a) (after (perform r) b).
Proof.
  intros (Hid & Hs & Hsub & Hp & Hf). unfold after.
  assert (Hn : forall s, notifications a s = notifications b s).
  { intros s. unfold notifications. now rewrite Hsub. }
  destruct r as [message| | |f|f]; cbn [perform].
  - destruct (isMessageTypeValid (type message)) eqn:V.
    + rewrite !sendMessage_valid, !processMessage_run by exact V.
      rewrite <- Hs.
      destruct (produceWithPatches _ _) as [[[s0 p0] i0]|e0];
        unfold alike, committed;
        cbn [result final emitted id state subscribers history past future];
        repeat split; trivial.
      rewrite !patch_lists_push. now rewrite Hp.
    + unfold sendMessage. rewrite V. simpl. repeat split; trivial.
  - rewrite !undo_run. pose proof (patch_lists_pop _ _ Hp) as Hpop.
    destruct (pop (past (history a))) as [[c rest]|];
      destruct (pop (past (history b))) as [[c' rest']|]; try contradiction.
    + destruct Hpop as [Hc Hrest]. rewrite <- Hs, <- Hc.
      destruct (patched _ _) as [[newState newPatches]|e];
        unfold alike, undone, without_top_of_past;
        cbn [result final emitted id state subscribers history past future];
        repeat split; trivial.
      rewrite !patch_lists_push. cbn [Checkpoint.inversePatches]. now rewrite Hf.
    + simpl. repeat split; trivial.
  - rewrite !redo_run. pose proof (patch_lists_pop _ _ Hf) as Hpop.
    destruct (pop (future (history a))) as [[c rest]|];
      destruct (pop (future (history b))) as [[c' rest']|]; try contradiction.
    + destruct Hpop as [Hc Hrest]. rewrite <- Hs, <- Hc.
      destruct (patched _ _) as [[newState newPatches]|e];
        unfold alike, redone, without_top_of_future;
        cbn [result final emitted id state subscribers history past future];
        repeat split; trivial.
      rewrite !patch_lists_push. cbn [Checkpoint.inversePatches]. now rewrite Hp.
    + simpl. repeat split; trivial.
  - simpl. repeat split; trivial. now rewrite Hsub.
  - simpl. repeat split; trivial. now rewrite Hsub.
Qed.

(** X14.  The [state] field of the checkpoints is written but never read.
    Two actors that differ only in the [state] fields of the checkpoints on
    their stacks answer every request alike (same completion, same calls to
    subscribers, same diagnostics) and differ only in those fields afterwards,
    and so through any session. *)
Theorem checkpoint_state_is_never_read (r : request) (requests : list request)
    (a b : actor_t) :
  alike a b ->
  (result (perform r a) = result (perform r b) /\
   emitted (perform r a) = emitted (perform r b) /\
   alike (after (perform r) a) (after (perform r) b)) /\
  (emitted (session requests a) = emitted (session requests b) /\
   alike (after (session requests) a) (after (session requests) b)).
Proof.
  intros H. split; [now apply alike_perform|].
  revert a b H. induction requests as [|r' requests IH]; intros a b H.
  - split; [reflexivity|exact H].
  - destruct (alike_perform r' H) as (_ & He & Ha).
    destruct (IH _ _ Ha) as [He' Ha'].
    rewrite !emitted_session_cons, !after_session_cons, He, He'. auto.
Qed.

End ClientFacts.

(** * The actor tree *)

Section TreeFacts.
Context {State Patch Message Callback Err : Type}.
Context {message_shape : BaseMessage Message}.
Context {immer : Immer State Patch Err}.
Context {array_pattern : ArrayPattern State Patch Err}.
Context {concrete : ActorClass State Message Err}.
Context {callback_identity : Identity Callback}.

Local Abbreviation actor_t := (Actor State Patch Callback).
Local Abbreviation method := (M State Patch Callback Err).
Local Abbreviation object := (Object (State := State) (Patch := Patch) (Callback := Callback)).
Local Abbreviation heap_t := (list object).

(** ** Reading and writing the heap *)

Lemma deref_Some_lt (heap : heap_t) (r : Ref) (o : object) :
  deref heap r = Some o -> r < length heap.
Proof. intros H. apply nth_error_Some. unfold deref in H. congruence. Qed.

Lemma deref_push_old (heap : heap_t) (o : object) (r : Ref) :
  r < length heap -> deref (push heap o) r = deref heap r.
Proof. intros H. unfold deref, push. now apply nth_error_app1. Qed.

Lemma deref_push_new (heap : heap_t) (o : object) :
  deref (push heap o) (length heap) = Some o.
Proof.
  unfold deref, push. rewrite nth_error_app2 by lia.
  now rewrite Nat.sub_diag.
Qed.

Lemma deref_push_inv (heap : heap_t) (o o' : object) (r : Ref) :
  deref (push heap o) r = Some o' ->
  (r < length heap /\ deref heap r = Some o') \/ (r = length heap /\ o' = o).
Proof.
  intros H. destruct (Nat.lt_ge_cases r (length heap)) as [L|L].
  - left. split; [exact L|]. now rewrite deref_push_old in H.
  - pose proof (deref_Some_lt _ _ H) as L'. rewrite push_length in L'.
    assert (r = length heap) by lia. subst r.
    rewrite deref_push_new in H. injection H as <-. now right.
Qed.

Lemma store_length (heap : heap_t) (r : Ref) (o : object) :
  length (store heap r o) = length heap.
Proof.
  revert r. induction heap as [|x heap IH]; intros [|r]; simpl; auto.
Qed.

Lemma deref_store_same (heap : heap_t) (r : Ref) (o : object) :
  r < length heap -> deref (store heap r o) r = Some o.
Proof.
  revert r. induction heap as [|x heap IH]; intros [|r] H; simpl in *; try lia.
  - reflexivity.
  - apply IH. lia.
Qed.

Lemma deref_store_other (heap : heap_t) (r r' : Ref) (o : object) :
  r <> r' -> deref (store heap r o) r' = deref heap r'.
Proof.
  revert r r'. induction heap as [|x heap IH]; intros [|r] [|r'] H; simpl;
    try reflexivity; try congruence.
  apply IH. congruence.
Qed.

Lemma deref_push_other (heap : heap_t) (o : object) (r : Ref) :
  r <> length heap -> deref (push heap o) r = deref heap r.
Proof.
  intros H. destruct (Nat.lt_ge_cases r (length heap)) as [L|L].
  - now apply deref_push_old.
  - unfold deref. transitivity (@None object).
    + apply nth_error_None. rewrite push_length. lia.
    + symmetry. now apply nth_error_None.
Qed.

Lemma deref_lt_Some (heap : heap_t) (r : Ref) :
  r < length heap -> exists o, deref heap r = Some o.
Proof.
  intros H. unfold deref. destruct (nth_error heap r) as [o|] eqn:E.
  - now exists o.
  - apply nth_error_None in E. lia.
Qed.

(** ** What the two ways of making an actor do *)

(** The object [new C(id, initialState, parent)] allocates. *)
Local Abbreviation born id0 initialState parent0 :=
  ({| fields := new (Err := Err) id0 initialState;
      parent := parent0; children := [] |} : object).

(** The object [o] once [child] is entered in its [children]. *)
Local Abbreviation adopting o child :=
  ({| fields := fields o; parent := parent o;
      children := push (children o) child |} : object).

Lemma createChild_run (self : Ref) (id0 : string) (initialState : State)
    (heap : heap_t) (o : object) :
  deref heap self = Some o ->
  createChild (Err := Err) self id0 initialState heap
  = (store (push heap (born id0 initialState (Some self))) self
       (adopting o (length heap)),
     length heap).
Proof.
  intros H. pose proof (deref_Some_lt _ _ H) as L.
  unfold createChild, construct. rewrite deref_push_old, H by exact L.
  reflexivity.
Qed.

Lemma deref_createChild (self : Ref) (id0 : string) (initialState : State)
    (heap : heap_t) (o : object) (r : Ref) :
  deref heap self = Some o ->
  deref (fst (createChild (Err := Err) self id0 initialState heap)) r
  = if r =? self then Some (adopting o (length heap))
    else if r =? length heap then Some (born id0 initialState (Some self))
    else deref heap r.
Proof.
  intros H. pose proof (deref_Some_lt _ _ H) as L.
  rewrite createChild_run with (o := o) by exact H. simpl.
  destruct (Nat.eqb_spec r self) as [->|Hself].
  - apply deref_store_same. rewrite push_length. lia.
  - rewrite deref_store_other by congruence.
    destruct (Nat.eqb_spec r (length heap)) as [->|Hchild].
    + apply deref_push_new.
    + now apply deref_push_other.
Qed.

(** X15.  [createChild(id, initialState)] called on an actor makes a new
    object, whatever [id] is (ids already in use are not refused): its
    [getParent()] is the caller, its [getId()] is [id], its state is
    [initialState], and it has no history, no subscribers and no children of
    its own.  The caller gets the new object as the last entry of its
    [children] and is otherwise unchanged; no other object changes. *)
Theorem createChild_links_child (self : Ref) (id0 : string)
    (initialState : State) (heap : heap_t) (o : object) :
  deref heap self = Some o ->
  deref heap (snd (createChild (Err := Err) self id0 initialState heap)) = None /\
  deref (fst (createChild (Err := Err) self id0 initialState heap))
        (snd (createChild (Err := Err) self id0 initialState heap))
    = Some {| fields := {| id := id0; state := initialState; subscribers := [];
                           history := {| past := []; future := [] |} |};
              parent := Some self; children := [] |} /\
  getParent (snd (createChild (Err := Err) self id0 initialState heap))
            (fst (createChild (Err := Err) self id0 initialState heap))
    = Some self /\
  option_map (@result _ _ _ _ _)
    (snd (call (snd (createChild (Err := Err) self id0 initialState heap))
               (getId : method string)
               (fst (createChild (Err := Err) self id0 initialState heap))))
    = Some (Normal id0) /\
  deref (fst (createChild (Err := Err) self id0 initialState heap)) self
    = Some {| fields := fields o; parent := parent o;
              children := push (children o)
                            (snd (createChild (Err := Err) self id0 initialState heap)) |} /\
  (forall r, r <> self ->
             r <> snd (createChild (Err := Err) self id0 initialState heap) ->
             deref (fst (createChild (Err := Err) self id0 initialState heap)) r
             = deref heap r).
Proof.
  intros H. pose proof (deref_Some_lt _ _ H) as L.
  assert (Hchild : snd (createChild (Err := Err) self id0 initialState heap)
                   = length heap).
  { now rewrite createChild_run with (o := o) by exact H. }
  assert (Hnew : deref (fst (createChild (Err := Err) self id0 initialState heap))
                       (length heap)
                 = Some (born id0 initialState (Some self))).
  { rewrite deref_createChild with (o := o) by exact H.
    destruct (Nat.eqb_spec (length heap) self); [lia|].
    now rewrite Nat.eqb_refl. }
  rewrite Hchild. repeat split.
  - apply nth_error_None. lia.
  - exact Hnew.
  - unfold getParent. now rewrite Hnew.
  - unfold call. now rewrite Hnew.
  - rewrite deref_createChild with (o := o) by exact H. now rewrite Nat.eqb_refl.
  - intros r Hself Hr. rewrite deref_createChild with (o := o) by exact H.
    destruct (Nat.eqb_spec r self); [contradiction|].
    destruct (Nat.eqb_spec r (length heap)); [contradiction|]. reflexivity.
Qed.

(** ** The links of the heaps a program builds *)

Lemma links_construct (heap : heap_t) id0 initialState parent0 :
  match parent0 with Some p => p < length heap | None => True end ->
  children_point_back heap -> parents_are_older heap ->
  children_point_back (fst (construct (Err := Err) id0 initialState parent0 heap)) /\
  parents_are_older (fst (construct (Err := Err) id0 initialState parent0 heap)).
Proof.
  intros Hparent Hc Hp. simpl. split.
  - intros p o Hd. apply deref_push_inv in Hd as [[L Hd]|[-> ->]].
    + destruct (Hc p o Hd) as [ND Hin]. split; [exact ND|].
      intros c Hc'. destruct (Hin c Hc') as (Lt & oc & Hdc & Hpc).
      split; [exact Lt|]. exists oc. split; [|exact Hpc].
      rewrite deref_push_old; [exact Hdc|]. eapply deref_Some_lt; eauto.
    + simpl. split; [constructor|]. intros c [].
  - intros c oc p Hd Hpc. apply deref_push_inv in Hd as [[L Hd]|[-> ->]].
    + eapply Hp; eauto.
    + simpl in Hpc. subst parent0. exact Hparent.
Qed.

Lemma links_createChild (heap : heap_t) (self : Ref) id0 initialState :
  self < length heap ->
  children_point_back heap -> parents_are_older heap ->
  children_point_back (fst (createChild (Err := Err) self id0 initialState heap)) /\
  parents_are_older (fst (createChild (Err := Err) self id0 initialState heap)).
Proof.
  intros L Hc Hp. destruct (deref_lt_Some heap L) as [o Ho].
  assert (Hkeep : forall c oc, deref heap c = Some oc ->
            exists oc',
              deref (fst (createChild (Err := Err) self id0 initialState heap)) c
                = Some oc' /\ parent oc' = parent oc).
  { intros c oc Hd. rewrite deref_createChild with (o := o) by exact Ho.
    destruct (Nat.eqb_spec c self) as [->|Hself].
    - rewrite Ho in Hd. injection Hd as <-. eexists. split; reflexivity.
    - destruct (Nat.eqb_spec c (length heap)) as [->|Hchild].
      + apply deref_Some_lt in Hd. lia.
      + now exists oc. }
  split.
  - intros p o' Hd. rewrite deref_createChild with (o := o) in Hd by exact Ho.
    destruct (Nat.eqb_spec p self) as [->|Hself].
    + injection Hd as <-. simpl. destruct (Hc self o Ho) as [ND Hin]. split.
      * unfold push. apply NoDup_app; [exact ND|repeat constructor; intros []|].
        intros c Hc' [E|[]]. subst c.
        destruct (Hin _ Hc') as (_ & oc & Hdc & _).
        apply deref_Some_lt in Hdc. lia.
      * intros c Hc'. unfold push in Hc'. apply in_app_iff in Hc' as [Hc'|[<-|[]]].
        -- destruct (Hin c Hc') as (Lt & oc & Hdc & Hpc).
           split; [exact Lt|]. destruct (Hkeep c oc Hdc) as (oc' & Hd' & Hp').
           exists oc'. split; [exact Hd'|]. congruence.
        -- split; [exact L|]. eexists. split.
           ++ rewrite deref_createChild with (o := o) by exact Ho.
              destruct (Nat.eqb_spec (length heap) self); [lia|].
              rewrite Nat.eqb_refl. reflexivity.
           ++ reflexivity.
    + destruct (Nat.eqb_spec p (length heap)) as [->|Hchild].
      * injection Hd as <-. simpl. split; [constructor|]. intros c [].
      * destruct (Hc p o' Hd) as [ND Hin]. split; [exact ND|].
        intros c Hc'. destruct (Hin c Hc') as (Lt & oc & Hdc & Hpc).
        split; [exact Lt|]. destruct (Hkeep c oc Hdc) as (oc' & Hd' & Hp').
        exists oc'. split; [exact Hd'|]. congruence.
  - intros c oc p Hd Hpc.
    rewrite deref_createChild with (o := o) in Hd by exact Ho.
    destruct (Nat.eqb_spec c self) as [->|Hself].
    + injection Hd as <-. simpl in Hpc. eapply Hp; eauto.
    + destruct (Nat.eqb_spec c (length heap)) as [->|Hchild].
      * injection Hd as <-. simpl in Hpc. injection Hpc as <-. exact L.
      * eapply Hp; eauto.
Qed.

Lemma deref_call {A} (self : Ref) (c : method A) (heap : heap_t) (r : Ref) :
  (forall o', deref (fst (call self c heap)) r = Some o' ->
     exists o, deref heap r = Some o /\ parent o' = parent o /\
               children o' = children o) /\
  (forall o, deref heap r = Some o ->
     exists o', deref (fst (call self c heap)) r = Some o' /\
                parent o' = parent o /\ children o' = children o).
Proof.
  unfold call. destruct (deref heap self) as [o0|] eqn:E; simpl.
  - pose proof (deref_Some_lt _ _ E) as L.
    destruct (Nat.eq_dec self r) as [<-|Hr].
    + rewrite deref_store_same by exact L. split.
      * intros o' H. injection H as <-. now exists o0.
      * intros o H. rewrite E in H. injection H as <-.
        eexists. split; [reflexivity|]. now split.
    + rewrite deref_store_other by exact Hr. split.
      * intros o' H. now exists o'.
      * intros o H. now exists o.
  - split.
    + intros o' H. now exists o'.
    + intros o H. now exists o.
Qed.

Lemma links_call {A} (heap : heap_t) (self : Ref) (c : method A) :
  children_point_back heap -> parents_are_older heap ->
  children_point_back (fst (call self c heap)) /\
  parents_are_older (fst (call self c heap)).
Proof.
  intros Hc Hp. split.
  - intros p o' Hd.
    destruct (proj1 (deref_call self c heap p) o' Hd) as (o & Ho & _ & Hch).
    rewrite Hch. destruct (Hc p o Ho) as [ND Hin]. split; [exact ND|].
    intros x Hx. destruct (Hin x Hx) as (Lt & oc & Hdc & Hpc).
    split; [exact Lt|].
    destruct (proj2 (deref_call self c heap x) oc Hdc) as (oc' & Hd' & Hp' & _).
    exists oc'. split; [exact Hd'|]. congruence.
  - intros x oc p Hd Hpc.
    destruct (proj1 (deref_call self c heap x) oc Hd) as (o & Ho & Hp' & _).
    apply (Hp x o p Ho). congruence.
Qed.

Lemma built_links (heap : heap_t) :
  built (Err := Err) heap -> children_point_back heap /\ parents_are_older heap.
Proof.
  induction 1 as [|heap id0 s parent0 _ [Hc Hp] Hparent
                  |heap self id0 s _ [Hc Hp] L
                  |heap self A c _ [Hc Hp]].
  - split.
    + intros p o H. destruct p; discriminate H.
    + intros c oc p H. destruct c; discriminate H.
  - now apply links_construct.
  - now apply links_createChild.
  - now apply links_call.
Qed.

Lemma ancestor_is_older (heap : heap_t) (n : nat) :
  parents_are_older heap ->
  forall r p, ancestor (S n) r heap = Some p -> p < r.
Proof.
  intros Hp. induction n as [|n IH]; intros r p H; simpl in H;
    unfold getParent in H;
    destruct (deref heap r) as [o|] eqn:Hd; try discriminate H;
    destruct (parent o) as [q|] eqn:Hq; try discriminate H;
    pose proof (Hp r o q Hd Hq) as Lt.
  - injection H as <-. exact Lt.
  - transitivity q; [|exact Lt]. apply IH. exact H.
Qed.

(** X16.  In every heap a program can build (constructing actors with or
    without an existing parent, creating children, calling methods), each
    entry of an actor's [children] is a live actor whose [getParent()] is
    that actor, no actor is entered twice, and following [getParent()] one
    or more times always leads to an older object, so no actor is its own
    ancestor. *)
Theorem tree_links_are_consistent (heap : heap_t) :
  built (Err := Err) heap ->
  (forall p o, deref heap p = Some o ->
     NoDup (children o) /\
     forall c, In c (children o) -> getParent c heap = Some p) /\
  (forall n r p, ancestor (S n) r heap = Some p -> p < r).
Proof.
  intros H. destruct (built_links H) as [Hc Hp]. split.
  - intros p o Hd. destruct (Hc p o Hd) as [ND Hin]. split; [exact ND|].
    intros c Hc'. destruct (Hin c Hc') as (_ & oc & Hdc & Hpc).
    unfold getParent. now rewrite Hdc.
  - intros n. now apply ancestor_is_older.
Qed.

(** X17.  Constructing an actor with a parent, without going through
    [createChild], records the parent in the new actor only: [getParent()]
    of the new actor is that parent, but the parent object is unchanged and
    the new actor is not among its [children]. *)
Theorem constructor_does_not_register (heap : heap_t) (p : Ref) (o : object)
    (id0 : string) (initialState : State) :
  built (Err := Err) heap ->
  deref heap p = Some o ->
  getParent (snd (construct (Err := Err) id0 initialState (Some p) heap))
            (fst (construct (Err := Err) id0 initialState (Some p) heap))
    = Some p /\
  deref (fst (construct (Err := Err) id0 initialState (Some p) heap)) p = Some o /\
  ~ In (snd (construct (Err := Err) id0 initialState (Some p) heap)) (children o).
Proof.
  intros Hbuilt Hd. destruct (built_links Hbuilt) as [Hc _].
  pose proof (deref_Some_lt _ _ Hd) as L. simpl. repeat split.
  - unfold getParent. now rewrite deref_push_new.
  - now rewrite deref_push_old.
  - intros Hin. destruct (Hc p o Hd) as [_ Hback].
    destruct (Hback _ Hin) as (_ & oc & Hdc & _).
    apply deref_Some_lt in Hdc. lia.
Qed.

End TreeFacts.

(** * The further properties at work on the counter *)

Lemma empty_history_calls_are_inert_counter :
  undo Counter.fresh
    = {| result := Normal tt; final := Counter.fresh; emitted := [] |} /\
  redo Counter.fresh
    = {| result := Normal tt; final := Counter.fresh; emitted := [] |}.
Proof.
  destruct (empty_history_calls_are_inert Counter.fresh) as [Hundo Hredo].
  split; [apply Hundo|apply Hredo]; reflexivity.
Defined.

Lemma undo_drops_checkpoint_and_throws_counter :
  past (history Counter.twice) <> [] /\
  exists c e,
    past (history Counter.twice)
      = push (past (history (after undo Counter.twice))) c /\
    result (undo Counter.twice) = Throw e /\
    state (after undo Counter.twice) = state Counter.twice.
Proof.
  split; [discriminate|].
  destruct (undo_drops_checkpoint_and_throws Counter.twice counter_not_iterable)
    as (c & e & Hpast & Hresult & Hstate & _).
  - discriminate.
  - exists c, e. exact (conj Hpast (conj Hresult Hstate)).
Defined.

Lemma caught_undos_drop_top_checkpoints_counter :
  2 <= length (past (history Counter.twice)) /\
  past (history (after (session (repeat (Undo : CounterClient.request) 2))
                   Counter.twice))
    = [] /\
  state (after (session (repeat (Undo : CounterClient.request) 2)) Counter.twice)
    = state Counter.twice.
Proof.
  split; [simpl; lia|].
  destruct (caught_undos_drop_top_checkpoints (n := 2) Counter.twice
              counter_not_iterable) as (Hpast & Hstate & _).
  - simpl. lia.
  - exact (conj Hpast Hstate).
Defined.

Lemma history_size_never_grows_counter :
  length (past (history (after (session CounterClient.back_and_forth) Counter.twice)))
  + length (future (history (after (session CounterClient.back_and_forth) Counter.twice)))
  <= length (past (history Counter.twice)) + length (future (history Counter.twice)).
Proof.
  apply (history_size_never_grows CounterClient.back_and_forth Counter.twice).
  reflexivity.
Defined.

Lemma subscriptions_and_history_are_separate_counter :
  subscribers (after (session [SendMessage Counter.increment; Undo; Redo;
                               SendMessage Counter.fail])
                 Counter.watched)
    = subscribers Counter.watched /\
  history (after (session [Subscribe 9; Unsubscribe 7]) Counter.twice)
    = history Counter.twice.
Proof.
  destruct (subscriptions_and_history_are_separate
              [SendMessage Counter.increment; Undo; Redo; SendMessage Counter.fail]
              Counter.watched) as [Hsubscribers _].
  destruct (subscriptions_and_history_are_separate
              [Subscribe 9; Unsubscribe 7] Counter.twice) as [_ Hhistory].
  split; [apply Hsubscribers; reflexivity|].
  destruct (Hhistory eq_refl) as (_ & H & _). exact H.
Defined.

Lemma undo_and_redo_never_change_state_counter :
  state (after (session CounterClient.back_and_forth) Counter.watched)
    = state Counter.watched /\
  emitted (session CounterClient.back_and_forth Counter.twice) = [].
Proof.
  destruct (undo_and_redo_never_change_state CounterClient.back_and_forth
              Counter.watched counter_not_iterable eq_refl) as [Hstate _].
  destruct (undo_and_redo_never_change_state CounterClient.back_and_forth
              Counter.twice counter_not_iterable eq_refl) as [_ Hemitted].
  exact (conj Hstate Hemitted).
Defined.

Lemma undo_after_dispatch_forgets_it_counter :
  exists e,
    undo (after (sendMessage Counter.increment) Counter.once)
    = {| result := Throw e;
         final := {| id := id Counter.once; state := {| Counter.count := 2 |};
                     subscribers := subscribers Counter.once;
                     history := {| past := past (history Counter.once);
                                   future := [] |} |};
         emitted := [] |}.
Proof.
  apply (undo_after_dispatch_forgets_it Counter.increment Counter.once
           (patches := [Counter.replace_count 2])
           (inversePatches := [Counter.replace_count 1])).
  - exact counter_not_iterable.
  - reflexivity.
  - reflexivity.
Defined.

Lemma future_is_never_filled_counter :
  future (history (after (session CounterClient.mixed) Counter.fresh)) = [].
Proof.
  destruct (future_is_never_filled "counter" {| Counter.count := 0 |}
              CounterClient.mixed counter_not_iterable) as [Hfuture _].
  exact Hfuture.
Defined.

Lemma unsubscribe_is_idempotent_counter :
  after (unsubscribe 7 : Counter.method unit)
    (after (unsubscribe 7 : Counter.method unit) Counter.watched)
    = after (unsubscribe 7 : Counter.method unit) Counter.watched /\
  subscribers (after (unsubscribe 9 : Counter.method unit) Counter.watched)
    = subscribers Counter.watched.
Proof.
  destruct (unsubscribe_is_idempotent (Err := Counter.Err) 7 Counter.watched)
    as [Htwice _].
  destruct (unsubscribe_is_idempotent (Err := Counter.Err) 9 Counter.watched)
    as [_ Habsent].
  split; [exact Htwice|]. apply Habsent.
  intros [H|[H|[H|[]]]]; discriminate H.
Defined.

Lemma subscribe_then_unsubscribe_counter :
  after (unsubscribe 9 : Counter.method unit)
    (after (subscribe 9 : Counter.method _) Counter.watched)
  = Counter.watched.
Proof.
  apply (subscribe_then_unsubscribe (Err := Counter.Err) 9 Counter.watched).
  intros [H|[H|[H|[]]]]; discriminate H.
Defined.

Lemma unsubscribed_callback_is_never_called_counter :
  ~ In 7 (called (emitted (session [SendMessage Counter.increment; Subscribe 9;
                                    Undo; Redo]
                             (after (unsubscribe 7 : Counter.method unit)
                                Counter.watched)))).
Proof.
  apply (unsubscribed_callback_is_never_called 7
           [SendMessage Counter.increment; Subscribe 9; Undo; Redo]
           Counter.watched).
  reflexivity.
Defined.

Lemma checkpoint_state_is_never_read_counter :
  past (history CounterClient.pushed_at_1) <> past (history CounterClient.pushed_at_2) /\
  emitted (session CounterClient.mixed CounterClient.pushed_at_1)
    = emitted (session CounterClient.mixed CounterClient.pushed_at_2).
Proof.
  split; [discriminate|].
  destruct (checkpoint_state_is_never_read Undo CounterClient.mixed
              (a := CounterClient.pushed_at_1) (b := CounterClient.pushed_at_2))
    as (_ & Hemitted & _).
  - repeat split.
  - exact Hemitted.
Defined.

Lemma createChild_links_child_counter :
  getParent (snd (createChild (Err := Counter.Err) 0 "child"
                    {| Counter.count := 3 |} CounterTree.root_only))
            (fst (createChild (Err := Counter.Err) 0 "child"
                    {| Counter.count := 3 |} CounterTree.root_only))
  = Some 0.
Proof.
  destruct (createChild_links_child (Err := Counter.Err) 0 "child"
              {| Counter.count := 3 |} CounterTree.root_only
              (o := {| fields := new (Err := Counter.Err) "root" {| Counter.count := 0 |};
                       parent := None; children := [] |})
              eq_refl)
    as (_ & _ & Hparent & _).
  exact Hparent.
Defined.

Lemma counter_tree_built : built (Err := Counter.Err) CounterTree.with_children.
Proof.
  unfold CounterTree.with_children, CounterTree.root_only.
  apply built_createChild; [|simpl; lia].
  apply built_createChild; [|simpl; lia].
  apply built_construct; [apply built_empty|exact I].
Qed.

Lemma tree_links_are_consistent_counter :
  (forall c, In c [1; 2] -> getParent c CounterTree.with_children = Some 0) /\
  (forall n r p, ancestor (S n) r CounterTree.with_children = Some p -> p < r).
Proof.
  destruct (tree_links_are_consistent counter_tree_built) as [Hchildren Holder].
  split; [|exact Holder].
  destruct (Hchildren 0 _ eq_refl) as [_ Hback]. exact Hback.
Defined.

Lemma constructor_does_not_register_counter :
  getParent (snd (construct (Err := Counter.Err) "stray" {| Counter.count := 9 |}
                    (Some 0) CounterTree.with_children))
            (fst (construct (Err := Counter.Err) "stray" {| Counter.count := 9 |}
                    (Some 0) CounterTree.with_children))
    = Some 0 /\
  option_map (@children _ _ _)
    (deref (fst (construct (Err := Counter.Err) "stray" {| Counter.count := 9 |}
                   (Some 0) CounterTree.with_children)) 0)
    = Some [1; 2].
Proof.
  destruct (constructor_does_not_register 0 "stray" {| Counter.count := 9 |}
              counter_tree_built eq_refl) as (Hparent & Hsame & _).
  split; [exact Hparent|].
  exact (f_equal (option_map (@children _ _ _)) Hsame).
Defined.
